(** * change-case: pinned and recent case lists, persistence and text input

    A shallow embedding of [extensions/change-case/src/change-case.tsx].

    - JavaScript strings are sequences of UTF-16 code units: [list N].
    - [CaseType] is a string; the keys of the registry [functions] of
      [./types.js], the preference values and the frontmost application are
      the fields of [Env], which the rendering takes as a parameter.
    - React state ([pinned], [recent]) is a record that every action handler
      maps to the next record; handlers read the lists of the render they
      were created in, which is the current state when one action runs at a
      time.
    - [Cache] is a finite map from keys to strings.
    - Code that can throw returns [result].
    - [JSON.stringify] and [JSON.parse] are modelled on the code units of the
      text: the quoting of strings with its escapes, and a parser of the
      whole JSON grammar. *)

From Stdlib Require Import NArith Ascii String.
From stdpp Require Import gmap list.

Local Open Scope N_scope.

(** ** JavaScript strings *)

Abbreviation jsstring := (list N).

(** A string literal of the source, as its code units. *)
Definition js (s : string) : jsstring :=
  map N_of_ascii (list_ascii_of_string s).

(** The same, with every apostrophe standing for a double quote (for JSON
    texts in examples). *)
Definition jsq (s : string) : jsstring :=
  (λ c, if c =? 39 then 34 else c) <$> js s.

(** [if (s)] on a string: the empty string is falsy. *)
Definition truthy_string (s : jsstring) : bool :=
  match s with
  | [] => false
  | _ :: _ => true
  end.

(** [if (x)] on [string | undefined]. *)
Definition truthy_opt_string (x : option jsstring) : bool :=
  match x with
  | None => false
  | Some s => truthy_string s
  end.

(** [if (b)] on an optional boolean prop ([pinned?: boolean]). *)
Definition truthy_flag (b : option bool) : bool :=
  match b with
  | Some true => true
  | _ => false
  end.

(** ** Exceptions *)

Inductive exn : Type :=
  | NoTextError
  | SyntaxError
  | HostError.

Inductive result (A : Type) : Type :=
  | Ok (a : A)
  | Throw (e : exn).

Arguments Ok {A} a.
Arguments Throw {A} e.

(** [try { return await p } catch (error) { return d }] *)
Definition try_catch {A : Type} (r : result A) (d : A) : A :=
  match r with
  | Ok a => a
  | Throw _ => d
  end.

(** ** Reading the text to convert (lines 31-52) *)

(** What the host answers to the two reads. [Clipboard.readText] resolves to
    [string | undefined]; [getSelectedText] resolves to a string or rejects
    (nothing selected, no accessibility permission). *)
Record Host : Type := mkHost {
  Clipboard_readText : option jsstring;
  getSelectedText : result jsstring
}.

Definition getSelection (h : Host) : jsstring :=
  try_catch (getSelectedText h) [].

Definition readContent (h : Host) (preferredSource : jsstring) : result jsstring :=
  let clipboard := Clipboard_readText h in
  let selected := getSelection h in
  if decide (preferredSource = js "clipboard") then
    if truthy_opt_string clipboard then Ok (default [] clipboard)
    else if truthy_string selected then Ok selected
    else Throw NoTextError
  else
    if truthy_string selected then Ok selected
    else if truthy_opt_string clipboard then Ok (default [] clipboard)
    else Throw NoTextError.

(** ** Applying a case function line by line (lines 54-61) *)

Definition LF : N := 10.

(** [input.split("\n")]: the pieces between line feeds; never empty. *)
Fixpoint split_lines (input : jsstring) : list jsstring :=
  match input with
  | [] => [[]]
  | c :: rest =>
      if decide (c = LF) then [] :: split_lines rest
      else
        match split_lines rest with
        | [] => [[c]]
        | line :: lines => (c :: line) :: lines
        end
  end.

(** [arr.join("\n")] *)
Fixpoint join_lines (arr : list jsstring) : jsstring :=
  match arr with
  | [] => []
  | [line] => line
  | line :: more => line ++ LF :: join_lines more
  end.

Definition CaseFunction : Type := jsstring → jsstring.

(** The [for ... of] loop pushes [case_(line)] for each line in order. *)
Fixpoint push_each (case_ : CaseFunction) (lines : list jsstring)
    (modifiedArr : list jsstring) : list jsstring :=
  match lines with
  | [] => modifiedArr
  | line :: more => push_each case_ more (modifiedArr ++ [case_ line])
  end.

Definition modifyCasesWrapper (input : jsstring) (case_ : CaseFunction) : jsstring :=
  let modifiedArr := [] in
  let lines := split_lines input in
  let modifiedArr := push_each case_ lines modifiedArr in
  join_lines modifiedArr.

(** ** JSON text (the runtime's [JSON.stringify] and [JSON.parse]) *)

Abbreviation TAB := 9%N.
Abbreviation CR := 13%N.
Abbreviation SPACE := 32%N.
Abbreviation QUOTE := 34%N.
Abbreviation COMMA := 44%N.
Abbreviation COLON := 58%N.
Abbreviation LBRACKET := 91%N.
Abbreviation BACKSLASH := 92%N.
Abbreviation RBRACKET := 93%N.
Abbreviation LBRACE := 123%N.
Abbreviation RBRACE := 125%N.

(** *** QuoteJSONString *)

Definition is_leading_surrogate (c : N) : bool := (0xD800 <=? c) && (c <=? 0xDBFF).
Definition is_trailing_surrogate (c : N) : bool := (0xDC00 <=? c) && (c <=? 0xDFFF).

(** Lowercase hexadecimal digit of a value below 16. *)
Definition hex_digit (d : N) : N := if d <? 10 then 48 + d else 87 + d.

(** [\uXXXX] *)
Definition UnicodeEscape (c : N) : jsstring :=
  [BACKSLASH; 117; hex_digit (c / 4096 mod 16); hex_digit (c / 256 mod 16);
   hex_digit (c / 16 mod 16); hex_digit (c mod 16)].

(** One code point that is not a surrogate pair. *)
Definition quote_unit (c : N) : jsstring :=
  if c =? 8 then [BACKSLASH; 98]
  else if c =? TAB then [BACKSLASH; 116]
  else if c =? LF then [BACKSLASH; 110]
  else if c =? 12 then [BACKSLASH; 102]
  else if c =? CR then [BACKSLASH; 114]
  else if c =? QUOTE then [BACKSLASH; QUOTE]
  else if c =? BACKSLASH then [BACKSLASH; BACKSLASH]
  else if (c <? SPACE) || is_leading_surrogate c || is_trailing_surrogate c
       then UnicodeEscape c
  else [c].

(** The string is read as code points: a leading surrogate followed by a
    trailing one is one code point and is copied; a lone surrogate is
    escaped. *)
Fixpoint quote_units (s : jsstring) : jsstring :=
  match s with
  | [] => []
  | c :: rest =>
      match rest with
      | d :: rest' =>
          if is_leading_surrogate c && is_trailing_surrogate d
          then c :: d :: quote_units rest'
          else quote_unit c ++ quote_units rest
      | [] => quote_unit c
      end
  end.

Definition QuoteJSONString (s : jsstring) : jsstring :=
  QUOTE :: quote_units s ++ [QUOTE].

(** *** [JSON.stringify] of an array of strings, no indentation *)

Fixpoint stringify_elements (items : list jsstring) : jsstring :=
  match items with
  | [] => []
  | [x] => QuoteJSONString x
  | x :: more => QuoteJSONString x ++ COMMA :: stringify_elements more
  end.

Definition JSON_stringify (items : list jsstring) : jsstring :=
  LBRACKET :: stringify_elements items ++ [RBRACKET].

(** *** JSON values

    A number keeps its lexeme (no claim depends on its value). An object keeps
    its members in the order of the text. *)
#[warnings="-register-all"] Inductive json : Type :=
  | JNull
  | JBool (b : bool)
  | JNum (lexeme : jsstring)
  | JStr (s : jsstring)
  | JArr (elements : list json)
  | JObj (members : list (jsstring * json)).

(** The runtime value of a [CaseType[]]. *)
Definition json_of_cases (items : list jsstring) : json :=
  JArr (JStr <$> items).

(** *** [JSON.parse] *)

Definition is_ws (c : N) : bool :=
  (c =? TAB) || (c =? LF) || (c =? CR) || (c =? SPACE).

Fixpoint skip_ws (s : jsstring) : jsstring :=
  match s with
  | c :: rest => if is_ws c then skip_ws rest else s
  | [] => []
  end.

Definition is_digit (c : N) : bool := (48 <=? c) && (c <=? 57).

Definition hex_value (c : N) : option N :=
  if is_digit c then Some (c - 48)
  else if (97 <=? c) && (c <=? 102) then Some (c - 87)
  else if (65 <=? c) && (c <=? 70) then Some (c - 55)
  else None.

(** The character after a backslash, [u] apart. *)
Definition unescape (e : N) : option N :=
  if e =? QUOTE then Some QUOTE
  else if e =? BACKSLASH then Some BACKSLASH
  else if e =? 47 then Some 47
  else if e =? 98 then Some 8
  else if e =? 102 then Some 12
  else if e =? 110 then Some LF
  else if e =? 114 then Some CR
  else if e =? 116 then Some TAB
  else None.

Definition hex4 (h1 h2 h3 h4 : N) : option N :=
  match hex_value h1, hex_value h2, hex_value h3, hex_value h4 with
  | Some a, Some b, Some c, Some d => Some (((a * 16 + b) * 16 + c) * 16 + d)
  | _, _, _, _ => None
  end.

(** The characters of a string after its opening quote, up to and including
    the closing quote: the string's value and the text that follows. *)
Fixpoint parse_chars (s : jsstring) : option (jsstring * jsstring) :=
  match s with
  | [] => None
  | c :: r =>
      if c =? QUOTE then Some ([], r)
      else if c =? BACKSLASH then
        match r with
        | [] => None
        | e :: r1 =>
            if e =? 117 then
              match r1 with
              | h1 :: h2 :: h3 :: h4 :: r2 =>
                  match hex4 h1 h2 h3 h4, parse_chars r2 with
                  | Some u, Some (str, rest) => Some (u :: str, rest)
                  | _, _ => None
                  end
              | _ => None
              end
            else
              match unescape e, parse_chars r1 with
              | Some u, Some (str, rest) => Some (u :: str, rest)
              | _, _ => None
              end
        end
      else if c <? SPACE then None
      else
        match parse_chars r with
        | Some (str, rest) => Some (c :: str, rest)
        | None => None
        end
  end.

(** The longest prefix of digits, and what follows. *)
Fixpoint span_digits (s : jsstring) : jsstring * jsstring :=
  match s with
  | c :: r =>
      if is_digit c then let '(ds, rest) := span_digits r in (c :: ds, rest)
      else ([], s)
  | [] => ([], [])
  end.

(** One or more digits. *)
Definition digits1 (s : jsstring) : option (jsstring * jsstring) :=
  match span_digits s with
  | ([], _) => None
  | (ds, rest) => Some (ds, rest)
  end.

(** An optional minus sign, then 0 or a digit 1-9 followed by digits. *)
Definition parse_int (s : jsstring) : option (jsstring * jsstring) :=
  let '(sign, s1) :=
    match s with
    | c :: r => if c =? 45 then ([c], r) else ([], s)
    | [] => ([], s)
    end in
  match s1 with
  | c :: r =>
      if c =? 48 then Some (sign ++ [c], r)
      else if is_digit c then
        let '(ds, rest) := span_digits r in Some (sign ++ c :: ds, rest)
      else None
  | [] => None
  end.

(** An optional fraction: a dot and one or more digits. *)
Definition parse_frac (s : jsstring) : option (jsstring * jsstring) :=
  match s with
  | c :: r =>
      if c =? 46 then
        match digits1 r with
        | Some (ds, rest) => Some (c :: ds, rest)
        | None => None
        end
      else Some ([], s)
  | [] => Some ([], s)
  end.

(** An optional exponent: e or E, an optional sign, one or more digits. *)
Definition parse_exp (s : jsstring) : option (jsstring * jsstring) :=
  match s with
  | c :: r =>
      if (c =? 101) || (c =? 69) then
        let '(sign, r1) :=
          match r with
          | d :: r' => if (d =? 43) || (d =? 45) then ([d], r') else ([], r)
          | [] => ([], r)
          end in
        match digits1 r1 with
        | Some (ds, rest) => Some (c :: sign ++ ds, rest)
        | None => None
        end
      else Some ([], s)
  | [] => Some ([], s)
  end.

Definition parse_number (s : jsstring) : option (jsstring * jsstring) :=
  '(i, s1) ← parse_int s;
  '(f, s2) ← parse_frac s1;
  '(e, s3) ← parse_exp s2;
  Some (i ++ f ++ e, s3).

(** [true], [false], [null] *)
Definition parse_literal (s : jsstring) : option (json * jsstring) :=
  match s with
  | 116 :: 114 :: 117 :: 101 :: rest => Some (JBool true, rest)
  | 102 :: 97 :: 108 :: 115 :: 101 :: rest => Some (JBool false, rest)
  | 110 :: 117 :: 108 :: 108 :: rest => Some (JNull, rest)
  | _ => None
  end.

(** What a parsing function answers: a value and the text after it, a
    rejection of the text, or that the recursion budget was too small. *)
Inductive outcome (A : Type) : Type :=
  | Parsed (a : A) (rest : jsstring)
  | Reject
  | OutOfFuel.

Arguments Parsed {A} a rest.
Arguments Reject {A}.
Arguments OutOfFuel {A}.

Definition of_option {A : Type} (o : option (A * jsstring)) : outcome A :=
  match o with
  | Some (a, rest) => Parsed a rest
  | None => Reject
  end.

(** A value with the white space before it; the elements of an array after
    its opening bracket, up to the closing bracket; the members of an object
    after its opening brace, up to the closing brace. *)
Fixpoint parse_value (fuel : nat) (s : jsstring) : outcome json :=
  match fuel with
  | O => OutOfFuel
  | S fuel' =>
      match skip_ws s with
      | [] => Reject
      | c :: r =>
          if c =? LBRACKET then
            match skip_ws r with
            | c' :: r' =>
                if c' =? RBRACKET then Parsed (JArr []) r'
                else
                  match parse_elements fuel' r with
                  | Parsed l rest => Parsed (JArr l) rest
                  | Reject => Reject
                  | OutOfFuel => OutOfFuel
                  end
            | [] => Reject
            end
          else if c =? LBRACE then
            match skip_ws r with
            | c' :: r' =>
                if c' =? RBRACE then Parsed (JObj []) r'
                else
                  match parse_members fuel' r with
                  | Parsed l rest => Parsed (JObj l) rest
                  | Reject => Reject
                  | OutOfFuel => OutOfFuel
                  end
            | [] => Reject
            end
          else if c =? QUOTE then
            of_option (prod_map JStr id <$> parse_chars r)
          else if (c =? 45) || is_digit c then
            of_option (prod_map JNum id <$> parse_number (c :: r))
          else of_option (parse_literal (c :: r))
      end
  end
with parse_elements (fuel : nat) (s : jsstring) : outcome (list json) :=
  match fuel with
  | O => OutOfFuel
  | S fuel' =>
      match parse_value fuel' s with
      | Parsed v rest =>
          match skip_ws rest with
          | c :: r =>
              if c =? COMMA then
                match parse_elements fuel' r with
                | Parsed l rest' => Parsed (v :: l) rest'
                | Reject => Reject
                | OutOfFuel => OutOfFuel
                end
              else if c =? RBRACKET then Parsed [v] r
              else Reject
          | [] => Reject
          end
      | Reject => Reject
      | OutOfFuel => OutOfFuel
      end
  end
with parse_members (fuel : nat) (s : jsstring) : outcome (list (jsstring * json)) :=
  match fuel with
  | O => OutOfFuel
  | S fuel' =>
      match skip_ws s with
      | q :: r0 =>
          if q =? QUOTE then
            match parse_chars r0 with
            | Some (key, rest0) =>
                match skip_ws rest0 with
                | k :: r1 =>
                    if k =? COLON then
                      match parse_value fuel' r1 with
                      | Parsed v rest =>
                          match skip_ws rest with
                          | c :: r =>
                              if c =? COMMA then
                                match parse_members fuel' r with
                                | Parsed l rest' => Parsed ((key, v) :: l) rest'
                                | Reject => Reject
                                | OutOfFuel => OutOfFuel
                                end
                              else if c =? RBRACE then Parsed [(key, v)] r
                              else Reject
                          | [] => Reject
                          end
                      | Reject => Reject
                      | OutOfFuel => OutOfFuel
                      end
                    else Reject
                | [] => Reject
                end
            | None => Reject
            end
          else Reject
      | [] => Reject
      end
  end.

(** Every call of the three functions above uses one unit and at most two
    calls are made for each character of the text ([parse_fuel_enough]). *)
Definition parse_fuel (text : jsstring) : nat := (2 * length text + 1)%nat.

(** [JSON.parse(text)]: one value, white space around it, nothing else. *)
Definition JSON_parse (text : jsstring) : result json :=
  match parse_value (parse_fuel text) text with
  | Parsed v rest =>
      match skip_ws rest with
      | [] => Ok v
      | _ :: _ => Throw SyntaxError
      end
  | Reject => Throw SyntaxError
  | OutOfFuel => Throw SyntaxError
  end.

(** ** The cache and the two stored lists (lines 63-81) *)

Abbreviation CaseType := (list N).

(** [new Cache()]: [get] answers the last string [set] under the key, or
    [undefined]. *)
Abbreviation Cache := (gmap string jsstring).

Definition getPinnedCases (cache : Cache) : result json :=
  let pinned := cache !! "pinned"%string in
  if truthy_opt_string pinned then JSON_parse (default [] pinned)
  else Ok (json_of_cases []).

Definition getRecentCases (cache : Cache) : result json :=
  let recent := cache !! "recent"%string in
  if truthy_opt_string recent then JSON_parse (default [] recent)
  else Ok (json_of_cases []).

Definition setPinnedCases (pinned : list CaseType) (cache : Cache) : Cache :=
  <["pinned"%string := JSON_stringify pinned]> cache.

Definition setRecentCases (recent : list CaseType) (cache : Cache) : Cache :=
  <["recent"%string := JSON_stringify recent]> cache.

(** ** The command's list state and its actions (lines 104-258) *)

(** [useState<CaseType[]>([])], twice. *)
Record State : Type := mkState {
  pinned : list CaseType;
  recent : list CaseType
}.

Definition initial : State := {| pinned := []; recent := [] |}.

(** The effects of lines 113-119 write both lists through after a change. *)
Definition persist (s : State) (cache : Cache) : Cache :=
  setRecentCases (recent s) (setPinnedCases (pinned s) cache).

(** The props of a [CaseItem] that the handlers read. [modified], the
    converted text handed to the clipboard, plays no part in the lists. *)
Record Props : Type := mkProps {
  p_case : CaseType;
  p_pinned : option bool;
  p_recent : option bool
}.

#[global] Instance Props_eq_dec : EqDecision Props.
Proof. solve_decision. Defined.

Inductive Action : Type :=
  | CopyToClipboard
  | PasteToActiveApp
  | PinCase
  | RemovePinnedCase
  | ClearPinnedCases
  | RemoveRecentCase
  | ClearRecentCases
  | CreateQuicklink.

#[global] Instance Action_eq_dec : EqDecision Action.
Proof. solve_decision. Defined.

(** Lines 145-152. The HUD, the clipboard write and the closing of the
    window leave the lists alone. *)
Definition CopyToClipboard_onAction (props : Props) (s : State) : State :=
  if negb (truthy_flag (p_pinned props)) then
    {| pinned := pinned s;
       recent := take 4 (p_case props :: filter (λ c, c ≠ p_case props) (recent s)) |}
  else s.

(** Lines 167-174. *)
Definition PasteToActiveApp_onAction (props : Props) (s : State) : State :=
  if negb (truthy_flag (p_pinned props)) then
    {| pinned := pinned s;
       recent := take 4 (p_case props :: filter (λ c, c ≠ p_case props) (recent s)) |}
  else s.

(** Lines 202-207. *)
Definition PinCase_onAction (props : Props) (s : State) : State :=
  {| pinned := p_case props :: pinned s;
     recent := if truthy_flag (p_recent props)
               then filter (λ c, c ≠ p_case props) (recent s)
               else recent s |}.

(** Lines 215-217. *)
Definition RemovePinnedCase_onAction (props : Props) (s : State) : State :=
  {| pinned := filter (λ c, c ≠ p_case props) (pinned s); recent := recent s |}.

(** Lines 223-225. *)
Definition ClearPinnedCases_onAction (s : State) : State :=
  {| pinned := []; recent := recent s |}.

(** Lines 235-237. *)
Definition RemoveRecentCase_onAction (props : Props) (s : State) : State :=
  {| pinned := pinned s; recent := filter (λ c, c ≠ p_case props) (recent s) |}.

(** Lines 243-245. *)
Definition ClearRecentCases_onAction (s : State) : State :=
  {| pinned := pinned s; recent := [] |}.

Definition onAction (a : Action) (props : Props) (s : State) : State :=
  match a with
  | CopyToClipboard => CopyToClipboard_onAction props s
  | PasteToActiveApp => PasteToActiveApp_onAction props s
  | PinCase => PinCase_onAction props s
  | RemovePinnedCase => RemovePinnedCase_onAction props s
  | ClearPinnedCases => ClearPinnedCases_onAction s
  | RemoveRecentCase => RemoveRecentCase_onAction props s
  | ClearRecentCases => ClearRecentCases_onAction s
  | CreateQuicklink => s
  end.

(** The two actions that convert with a case ("use" it). *)
Definition is_use (a : Action) : Prop :=
  a = CopyToClipboard ∨ a = PasteToActiveApp.

(** What the rendering reads besides the two lists: the keys of [functions]
    in [Object.entries] order ([./types.js]); of [getPreferenceValues()], the
    value under ["action"] and whether the value under a key is truthy;
    whether [getFrontmostApplication()] has answered. *)
Class Env : Type := mkEnv {
  functions : list CaseType;
  preferences_action : jsstring;
  preferences_truthy : jsstring → bool;
  frontmostApp : bool
}.

Section Rendering.

Context `{env : Env}.

(** [key.replace(/ +/g, empty)]: the key without its spaces. *)
Definition remove_spaces (key : jsstring) : jsstring :=
  filter (λ c, c ≠ SPACE) key.

(** The actions of one [CaseItem], in panel order (lines 190-254).
    [PasteToActiveApp] renders nothing without a frontmost application. *)
Definition CaseItem_actions (props : Props) : list Action :=
  let paste := if frontmostApp then [PasteToActiveApp] else [] in
  (if decide (preferences_action = js "paste") then paste else [])
  ++ [CopyToClipboard]
  ++ (if decide (preferences_action = js "copy") then paste else [])
  ++ (if negb (truthy_flag (p_pinned props)) then [PinCase]
      else [RemovePinnedCase; ClearPinnedCases])
  ++ (if truthy_flag (p_recent props) then [RemoveRecentCase; ClearRecentCases]
      else [])
  ++ [CreateQuicklink].

(** [x.includes(key)] *)
Definition includes (l : list CaseType) (key : CaseType) : bool :=
  bool_decide (key ∈ l).

(** The three sections of the list (lines 262-293). *)
Definition render (s : State) : list Props :=
  ((λ key, {| p_case := key; p_pinned := Some true; p_recent := None |}) <$> pinned s)
  ++ ((λ key, {| p_case := key; p_pinned := None; p_recent := Some true |}) <$> recent s)
  ++ ((λ key, {| p_case := key; p_pinned := None; p_recent := None |})
        <$> filter (λ key, preferences_truthy (remove_spaces key) = true
                           ∧ includes (recent s) key = false
                           ∧ includes (pinned s) key = false) functions).

(** One step of a session: an action of a rendered item runs, or the
    command is launched again and reads back what was written through. *)
Inductive step (s : State) : State → Prop :=
  | step_action (props : Props) (a : Action) :
      props ∈ render s → a ∈ CaseItem_actions props →
      step s (onAction a props s)
  | step_launch (cache : Cache) (p r : list CaseType) :
      getPinnedCases (persist s cache) = Ok (json_of_cases p) →
      getRecentCases (persist s cache) = Ok (json_of_cases r) →
      step s {| pinned := p; recent := r |}.

Definition reachable (s : State) : Prop := rtc step initial s.

End Rendering.

(** No identifier is in both lists. *)
Definition exclusive (s : State) : Prop :=
  ∀ id, id ∈ pinned s → id ∉ recent s.

(** The state invariant of a session. *)
Definition invariant (s : State) : Prop :=
  NoDup (pinned s) ∧ NoDup (recent s) ∧ (length (recent s) ≤ 4)%nat ∧ exclusive s.

(** A registry of three cases with every case enabled, the copy action
    preferred and a frontmost application known (for examples). *)
Definition example_env : Env :=
  {| functions := [js "camelCase"; js "snake_case"; js "Title Case"];
     preferences_action := js "copy";
     preferences_truthy := λ _, true;
     frontmostApp := true |}.

(** ** The operations in the words of the specification *)

Definition capacity : nat := 4.

(** "remove any existing occurrence of id" *)
Fixpoint remove_occurrences (id : CaseType) (items : list CaseType) : list CaseType :=
  match items with
  | [] => []
  | x :: more =>
      if decide (x = id) then remove_occurrences id more
      else x :: remove_occurrences id more
  end.

(** "truncate to the first n elements" *)
Fixpoint truncate (n : nat) (items : list CaseType) : list CaseType :=
  match n, items with
  | S n', x :: more => x :: truncate n' more
  | _, _ => []
  end.

(** RecentList.use of section 4.1. *)
Definition spec_use (id : CaseType) (isPinned : bool) (items : list CaseType)
    : list CaseType :=
  if isPinned then items
  else truncate capacity (id :: remove_occurrences id items).

(** [use(id, isPinned)] on the command's state: the copy action of an item
    for [id] whose [pinned] prop is [isPinned]. *)
Definition use (id : CaseType) (isPinned : bool) (s : State) : State :=
  CopyToClipboard_onAction
    {| p_case := id; p_pinned := Some isPinned; p_recent := None |} s.

(** A run of use actions, each with the props of its item. *)
Definition run_uses (calls : list (Action * Props)) (s : State) : State :=
  foldl (λ s call, onAction call.1 call.2 s) s calls.

(** "split on newline boundaries, apply the function to each line, rejoin
    with newline" *)
Definition spec_transform (input : jsstring) (f : CaseFunction) : jsstring :=
  join_lines (f <$> split_lines input).

(** The number of lines of a text. *)
Definition line_count (text : jsstring) : nat := length (split_lines text).

(** A stored string that is the serialization of some list of identifiers. *)
Definition valid_serialized (stored : jsstring) : Prop :=
  ∃ items : list CaseType, JSON_parse stored = Ok (json_of_cases items).

(** Whether a read of the host yields text. *)
Definition clipboard_yields_text (h : Host) : bool :=
  truthy_opt_string (Clipboard_readText h).

Definition selection_yields_text (h : Host) : bool :=
  match getSelectedText h with
  | Ok t => truthy_string t
  | Throw _ => false
  end.

(** ** The rest of the command *)

(** *** Launching with a case in the launch context (lines 84-99) *)

(** What the immediate conversion ends with: the text handed to
    [Clipboard.copy] and the message of the HUD, or the rejection of the
    unawaited [async] block (nothing is copied and nothing is shown). *)
Inductive Conversion : Type :=
  | Converted (copied : jsstring) (hud : jsstring)
  | ReadRejected (e : exn)
  | NotAFunction.

Inductive Launch : Type :=
  | Immediate (c : Conversion)
  | Interactive.

(** [functions_at key] is what [functions[key]] evaluates to when it can be
    called. [launchContext_case] is [props.launchContext?.case] when it is
    [undefined] or a string, as in the context of the quicklinks of line 180;
    a context whose case is another kind of value is not modelled. *)
Definition Command_launch (functions_at : CaseType → option CaseFunction)
    (h : Host) (preferredSource : jsstring)
    (launchContext_case : option jsstring) : Launch :=
  let immediatelyConvertToCase := launchContext_case in
  if truthy_opt_string immediatelyConvertToCase then
    let case_name := default [] immediatelyConvertToCase in
    Immediate
      match readContent h preferredSource with
      | Throw e => ReadRejected e
      | Ok content =>
          match functions_at case_name with
          | None => NotAFunction
          | Some f => Converted (f content) (js "Converted to " ++ case_name)
          end
      end
  else Interactive.

(** *** The text shown by the list (lines 101, 121-133) *)

(** The [clipboard] state after the effect that reads the text, and whether
    the failure toast is shown. The state starts as the empty string. *)
Definition read_effect (h : Host) (preferredSource : jsstring) : jsstring * bool :=
  match readContent h preferredSource with
  | Ok c => (c, false)
  | Throw e => ([], match e with NoTextError => true | _ => false end)
  end.

(** *** The quicklink of an item (lines 180-181) *)

(** The characters [encodeURIComponent] leaves alone: letters, digits and
    [- _ . ! ~ * ' ( )]. *)
Definition is_unreserved (c : N) : bool :=
  ((65 <=? c) && (c <=? 90)) || ((97 <=? c) && (c <=? 122)) || is_digit c
  || (c =? 45) || (c =? 95) || (c =? 46) || (c =? 33) || (c =? 126)
  || (c =? 42) || (c =? 39) || (c =? 40) || (c =? 41).

(** Uppercase hexadecimal digit of a value below 16. *)
Definition hex_upper (d : N) : N := if d <? 10 then 48 + d else 55 + d.

(** [%XX] for one octet. *)
Definition percent (octet : N) : jsstring :=
  [37; hex_upper (octet / 16); hex_upper (octet mod 16)].

(** The UTF-8 octets of a code point. *)
Definition utf8 (cp : N) : list N :=
  if cp <? 0x80 then [cp]
  else if cp <? 0x800 then [0xC0 + cp / 64; 0x80 + cp mod 64]
  else if cp <? 0x10000 then
    [0xE0 + cp / 4096; 0x80 + cp / 64 mod 64; 0x80 + cp mod 64]
  else
    [0xF0 + cp / 262144; 0x80 + cp / 4096 mod 64; 0x80 + cp / 64 mod 64;
     0x80 + cp mod 64].

(** The code point of a surrogate pair. *)
Definition pair_code_point (lead trail : N) : N :=
  (lead - 0xD800) * 0x400 + (trail - 0xDC00) + 0x10000.

Definition escape_code_point (cp : N) : jsstring :=
  mjoin (percent <$> utf8 cp).

(** [encodeURIComponent(s)]; [None] is the [URIError] of a lone surrogate. *)
Fixpoint encodeURIComponent (s : jsstring) : option jsstring :=
  match s with
  | [] => Some []
  | c :: rest =>
      if is_unreserved c then (c ::.) <$> encodeURIComponent rest
      else if is_leading_surrogate c then
        match rest with
        | d :: rest' =>
            if is_trailing_surrogate d
            then (escape_code_point (pair_code_point c d) ++.)
                   <$> encodeURIComponent rest'
            else None
        | [] => None
        end
      else if is_trailing_surrogate c then None
      else (escape_code_point c ++.) <$> encodeURIComponent rest
  end.

(** The template literal of line 180: the case between the two fixed parts,
    as it is. *)
Definition quicklink_context (case_name : CaseType) : jsstring :=
  jsq "{'case':'" ++ case_name ++ jsq "'}".

(** Line 181; [extensionName] and [commandName] come from [environment]. *)
Definition deeplink (extensionName commandName : jsstring) (case_name : CaseType)
    : option jsstring :=
  context ← encodeURIComponent (quicklink_context case_name);
  Some (js "raycast://extensions/erics118/" ++ extensionName ++ js "/"
        ++ commandName ++ js "?context=" ++ context).

(** *** The shortcuts of the panel (lines 198-246) *)

Inductive Modifier : Type := cmd | shift.

#[global] Instance Modifier_eq_dec : EqDecision Modifier.
Proof. solve_decision. Defined.

(** The [shortcut] prop of an action: its key and modifiers, if it has one. *)
Definition shortcut (a : Action) : option (jsstring * list Modifier) :=
  match a with
  | PinCase => Some (js "p", [cmd; shift])
  | RemovePinnedCase => Some (js "r", [cmd])
  | ClearPinnedCases => Some (js "r", [cmd; shift])
  | RemoveRecentCase => Some (js "r", [cmd])
  | ClearRecentCases => Some (js "r", [cmd; shift])
  | CopyToClipboard | PasteToActiveApp | CreateQuicklink => None
  end.

(** *** Reference orders for the recent list *)

(** The identifiers used so far, most recent first, each once and with no
    bound on their number. *)
Definition most_recent_first (ids : list CaseType) : list CaseType :=
  foldl (λ acc id, id :: filter (λ c, c ≠ id) acc) [] ids.

(** The identifiers shown by the list. *)
Definition rendered_cases `{env : Env} (s : State) : list CaseType :=
  p_case <$> render s.

(** The identifiers of both lists are keys of the registry. *)
Definition known `{env : Env} (s : State) : Prop :=
  ∀ id, id ∈ pinned s ∨ id ∈ recent s → id ∈ functions.

(** A character that JSON lets stand for itself inside a string. *)
Definition plain_char (c : N) : Prop :=
  32 <= c ∧ c ≠ QUOTE ∧ c ≠ BACKSLASH.

(** * Properties *)

(** ** The recent list *)

Section RecentList.

Implicit Types (id : CaseType) (items : list CaseType) (s : State).

Lemma remove_occurrences_filter id items :
  remove_occurrences id items = filter (λ c, c ≠ id) items.
Proof.
  induction items as [|x more IH]; [done|].
  simpl. rewrite filter_cons. rewrite IH.
  destruct (decide (x = id)), (decide (x ≠ id)); done.
Qed.

Lemma truncate_take n items : truncate n items = take n items.
Proof.
  revert items. induction n as [|n IH]; intros [|x more]; simpl; rewrite ?IH; done.
Qed.

Lemma filter_ne_absent id items :
  id ∉ items → filter (λ c, c ≠ id) items = items.
Proof.
  induction items as [|x more IH]; [done|].
  intros [Hx Hmore]%not_elem_of_cons.
  rewrite filter_cons_True; [|congruence]. by rewrite IH.
Qed.

Lemma not_elem_of_filter_ne id items : id ∉ filter (λ c, c ≠ id) items.
Proof. rewrite list_elem_of_filter. tauto. Qed.

Lemma not_elem_of_take id n items : id ∉ items → id ∉ take n items.
Proof.
  intros Hid [i [Hi _]]%elem_of_take.
  apply Hid. eapply list_elem_of_lookup_2. exact Hi.
Qed.

Lemma NoDup_take (n : nat) items : NoDup items → NoDup (take n items).
Proof. intros Hnd. exact (sublist_NoDup _ _ Hnd (sublist_take items n)). Qed.

(** What a use action does to the state when the item is not pinned. *)
Lemma use_action_unpinned a props s :
  is_use a → truthy_flag (p_pinned props) = false →
  onAction a props s =
    {| pinned := pinned s;
       recent := take 4 (p_case props :: filter (λ c, c ≠ p_case props) (recent s)) |}.
Proof.
  intros [-> | ->] Hp; simpl;
    unfold CopyToClipboard_onAction, PasteToActiveApp_onAction; by rewrite Hp.
Qed.

Lemma use_recent_NoDup id items :
  NoDup items → NoDup (take 4 (id :: filter (λ c, c ≠ id) items)).
Proof.
  intros Hnd. apply NoDup_take, NoDup_cons. split.
  - apply not_elem_of_filter_ne.
  - by apply NoDup_filter.
Qed.

Lemma use_recent_elem x id items :
  x ∈ take 4 (id :: filter (λ c, c ≠ id) items) → x = id ∨ x ∈ items.
Proof.
  intros [i [Hi _]]%elem_of_take. apply list_elem_of_lookup_2 in Hi.
  apply elem_of_cons in Hi as [-> | Hi]; [by left|].
  apply list_elem_of_filter in Hi as [_ Hi]. by right.
Qed.

Lemma use_recent_length id items :
  (length (take 4 (id :: filter (λ c, c ≠ id) items)) ≤ 4)%nat.
Proof. rewrite length_take. lia. Qed.

Lemma run_uses_invariant calls : ∀ s,
  Forall (λ call, is_use call.1 ∧ truthy_flag (p_pinned call.2) = false) calls →
  (length (recent s) ≤ 4)%nat → NoDup (recent s) →
  (length (recent (run_uses calls s)) ≤ 4)%nat ∧ NoDup (recent (run_uses calls s)).
Proof.
  induction calls as [|[a props] calls IH]; intros s Hall Hlen Hnd; [done|].
  apply Forall_cons in Hall as [[Ha Hp] Hall].
  unfold run_uses. simpl. apply IH; [done| |];
    rewrite (use_action_unpinned a props s Ha Hp); simpl.
  - apply (use_recent_length (p_case props)).
  - by apply use_recent_NoDup.
Qed.

End RecentList.

(** Simplifies [filter (λ c, c ≠ id)] over an explicit list whose elements
    are told apart by hypotheses. *)
Ltac filter_explicit :=
  repeat (rewrite filter_cons; destruct (decide _); [|try congruence]);
  rewrite ?filter_nil; try congruence.

(** C1. A use of an identifier whose item is not pinned produces the recent
    list obtained by removing the occurrences of the identifier, prepending
    it and keeping the first four elements; from empty lists, using four
    distinct identifiers A, B, C, D in that order gives [D,C,B,A], using A
    again gives [A,D,C,B], and using a fifth identifier E gives [E,A,D,C]. *)
Theorem use_unpinned_move_to_front (a : Action) (props : Props) (s : State)
    (A B C D E : CaseType) :
  is_use a → truthy_flag (p_pinned props) = false → NoDup [A; B; C; D; E] →
  onAction a props s =
    {| pinned := pinned s; recent := spec_use (p_case props) false (recent s) |}
  ∧ recent (foldl (λ s id, use id false s) initial [A; B; C; D]) = [D; C; B; A]
  ∧ recent (foldl (λ s id, use id false s) initial [A; B; C; D; A]) = [A; D; C; B]
  ∧ recent (foldl (λ s id, use id false s) initial [A; B; C; D; A; E]) = [E; A; D; C].
Proof.
  intros Ha Hp Hnd.
  split.
  { rewrite (use_action_unpinned a props s Ha Hp).
    unfold spec_use, capacity.
    f_equal. symmetry.
    etrans; [apply truncate_take|]. f_equal. f_equal.
    apply remove_occurrences_filter. }
  rewrite !NoDup_cons, !not_elem_of_cons in Hnd. destruct_and!.
  unfold use, CopyToClipboard_onAction, initial. simpl.
  repeat split; filter_explicit; simpl; filter_explicit; simpl; filter_explicit; done.
Qed.

Lemma use_unpinned_move_to_front_witness :
  let props := {| p_case := js "snake_case"; p_pinned := None; p_recent := Some true |} in
  let s := {| pinned := [js "camelCase"];
              recent := [js "A"; js "snake_case"; js "B"; js "C"] |} in
  is_use PasteToActiveApp
  ∧ truthy_flag (p_pinned props) = false
  ∧ NoDup [js "A"; js "B"; js "C"; js "D"; js "E"]
  ∧ onAction PasteToActiveApp props s =
      {| pinned := [js "camelCase"];
         recent := [js "snake_case"; js "A"; js "B"; js "C"] |}
  ∧ recent (foldl (λ s id, use id false s) initial
              [js "A"; js "B"; js "C"; js "D"; js "A"; js "E"])
    = [js "E"; js "A"; js "D"; js "C"].
Proof.
  intros props s.
  assert (Ha : is_use PasteToActiveApp) by (by right).
  assert (Hp : truthy_flag (p_pinned props) = false) by reflexivity.
  assert (Hnd : NoDup [js "A"; js "B"; js "C"; js "D"; js "E"]).
  { apply (bool_decide_unpack _). vm_compute. exact I. }
  destruct (use_unpinned_move_to_front PasteToActiveApp props s
              (js "A") (js "B") (js "C") (js "D") (js "E") Ha Hp Hnd)
    as (H1 & _ & _ & H4).
  exact (conj Ha (conj Hp (conj Hnd (conj H1 H4)))).
Defined.

(** C2. From an empty recent list, after any sequence of uses of unpinned
    items the recent list has at most four elements and no duplicate. *)
Theorem recent_bounded_no_duplicates (calls : list (Action * Props)) (s : State) :
  Forall (λ call, is_use call.1 ∧ truthy_flag (p_pinned call.2) = false) calls →
  recent s = [] →
  (length (recent (run_uses calls s)) ≤ 4)%nat ∧ NoDup (recent (run_uses calls s)).
Proof.
  intros Hall Hempty. apply run_uses_invariant; [done| |]; rewrite Hempty.
  - simpl. lia.
  - constructor.
Qed.

Lemma recent_bounded_no_duplicates_witness :
  let item id := {| p_case := id; p_pinned := None; p_recent := None |} in
  let calls := [(CopyToClipboard, item (js "A")); (PasteToActiveApp, item (js "B"));
                (CopyToClipboard, item (js "A")); (CopyToClipboard, item (js "C"));
                (CopyToClipboard, item (js "D")); (PasteToActiveApp, item (js "E"))] in
  Forall (λ call, is_use call.1 ∧ truthy_flag (p_pinned call.2) = false) calls
  ∧ recent initial = []
  ∧ (length (recent (run_uses calls initial)) ≤ 4)%nat
  ∧ NoDup (recent (run_uses calls initial)).
Proof.
  intros item calls.
  assert (Hall : Forall (λ call, is_use call.1 ∧ truthy_flag (p_pinned call.2) = false) calls).
  { repeat constructor; by (left + right). }
  destruct (recent_bounded_no_duplicates calls initial Hall eq_refl) as [Hlen Hnd].
  exact (conj Hall (conj eq_refl (conj Hlen Hnd))).
Defined.

(** C8. A use of an identifier whose item is pinned leaves the recent list
    (and the pinned list) as it was. *)
Theorem use_pinned_unchanged (a : Action) (props : Props) (s : State) :
  is_use a → truthy_flag (p_pinned props) = true →
  recent (onAction a props s) = recent s ∧ onAction a props s = s.
Proof.
  intros [-> | ->] Hp; simpl;
    unfold CopyToClipboard_onAction, PasteToActiveApp_onAction;
    rewrite Hp; done.
Qed.

Lemma use_pinned_unchanged_witness :
  let props := {| p_case := js "camelCase"; p_pinned := Some true; p_recent := None |} in
  let s := {| pinned := [js "camelCase"]; recent := [js "snake_case"] |} in
  is_use CopyToClipboard
  ∧ truthy_flag (p_pinned props) = true
  ∧ recent (onAction CopyToClipboard props s) = [js "snake_case"]
  ∧ recent (use (js "camelCase") true s) = recent s.
Proof.
  intros props s.
  assert (Ha : is_use CopyToClipboard) by (by left).
  destruct (use_pinned_unchanged CopyToClipboard props s Ha eq_refl) as [H1 H2].
  exact (conj Ha (conj eq_refl (conj H1 H1))).
Defined.

(** C10. Using the same unpinned identifier twice in a row gives the recent
    list that using it once gives, whichever of the two use actions runs. *)
Theorem use_twice_same_as_once (a a' : Action) (props : Props) (s : State) :
  is_use a → is_use a' → truthy_flag (p_pinned props) = false →
  recent (onAction a' props (onAction a props s)) = recent (onAction a props s).
Proof.
  intros Ha Ha' Hp.
  rewrite (use_action_unpinned a' props _ Ha' Hp).
  rewrite (use_action_unpinned a props s Ha Hp). simpl.
  set (m := filter (λ c, c ≠ p_case props) (recent s)).
  rewrite filter_cons_False by (intros H; by apply H).
  rewrite (filter_ne_absent (p_case props) (take 3 m)).
  - by rewrite take_take.
  - apply not_elem_of_take, not_elem_of_filter_ne.
Qed.

Lemma use_twice_same_as_once_witness :
  let props := {| p_case := js "E"; p_pinned := None; p_recent := None |} in
  let s := {| pinned := []; recent := [js "A"; js "B"; js "C"; js "D"] |} in
  is_use CopyToClipboard ∧ is_use PasteToActiveApp
  ∧ truthy_flag (p_pinned props) = false
  ∧ recent (onAction PasteToActiveApp props (onAction CopyToClipboard props s))
    = recent (onAction CopyToClipboard props s)
  ∧ recent (onAction CopyToClipboard props s) = [js "E"; js "A"; js "B"; js "C"].
Proof.
  intros props s.
  assert (Ha : is_use CopyToClipboard) by (by left).
  assert (Ha' : is_use PasteToActiveApp) by (by right).
  pose proof (use_twice_same_as_once CopyToClipboard PasteToActiveApp props s
                Ha Ha' eq_refl) as H.
  exact (conj Ha (conj Ha' (conj eq_refl (conj H eq_refl)))).
Defined.

(** ** Reading the text *)

(** One step of a proof by cases over constructors. *)
Ltac by_cases :=
  match goal with
  | H : _ ∨ _ |- _ => destruct H
  | H : _ ∧ _ |- _ => destruct H
  | H : _ = _ |- _ => discriminate H
  | |- _ ∧ _ => split
  | |- _ ↔ _ => split
  | |- _ → _ => intro
  | |- ∃ _, _ => eexists
  | |- _ = _ => reflexivity
  | |- _ ≠ _ => discriminate
  | |- _ ∨ _ => (left; reflexivity) || (right; reflexivity)
  end.

(** C7. [readContent] throws the no-text error exactly when neither the
    clipboard nor the selection yields text; when one of them does, it
    returns the non-empty text of one of them. *)
Theorem readContent_no_text_iff (h : Host) (preferredSource : jsstring) :
  (readContent h preferredSource = Throw NoTextError
   ↔ clipboard_yields_text h = false ∧ selection_yields_text h = false)
  ∧ (clipboard_yields_text h = true ∨ selection_yields_text h = true →
     ∃ t, readContent h preferredSource = Ok t ∧ t ≠ []
          ∧ (Clipboard_readText h = Some t ∨ getSelectedText h = Ok t)).
Proof.
  destruct h as [clipboard selected].
  unfold readContent, clipboard_yields_text, selection_yields_text, getSelection.
  simpl.
  destruct clipboard as [[|c cs]|], selected as [[|t ts]|e];
    destruct (decide (preferredSource = js "clipboard")); simpl;
    repeat by_cases.
Qed.

Lemma readContent_no_text_iff_witness :
  let h := {| Clipboard_readText := Some []; getSelectedText := Ok (js "hello world") |} in
  (clipboard_yields_text h = true ∨ selection_yields_text h = true)
  ∧ ∃ t, readContent h (js "clipboard") = Ok t ∧ t ≠ []
         ∧ (Clipboard_readText h = Some t ∨ getSelectedText h = Ok t).
Proof.
  intros h.
  assert (Hy : clipboard_yields_text h = true ∨ selection_yields_text h = true)
    by (right; reflexivity).
  exact (conj Hy (proj2 (readContent_no_text_iff h (js "clipboard")) Hy)).
Defined.

(** ** Applying a case function *)

Section Lines.

Implicit Types (line : jsstring) (lines : list jsstring) (f : CaseFunction).

Lemma push_each_fmap f lines : ∀ modifiedArr,
  push_each f lines modifiedArr = modifiedArr ++ (f <$> lines).
Proof.
  induction lines as [|line more IH]; intros acc; simpl.
  - by rewrite app_nil_r.
  - rewrite IH. by rewrite <- app_assoc.
Qed.

Lemma modifyCasesWrapper_spec input f :
  modifyCasesWrapper input f = spec_transform input f.
Proof. unfold modifyCasesWrapper, spec_transform. by rewrite push_each_fmap. Qed.

Lemma split_lines_no_LF line : LF ∉ line → split_lines line = [line].
Proof.
  induction line as [|c rest IH]; [done|].
  intros [Hc Hrest]%not_elem_of_cons. simpl.
  destruct (decide (c = LF)); [congruence|]. by rewrite IH.
Qed.

Lemma split_lines_app_LF line rest :
  LF ∉ line → split_lines (line ++ LF :: rest) = line :: split_lines rest.
Proof.
  induction line as [|c more IH]; simpl.
  - intros _. by destruct (decide (LF = LF)).
  - intros [Hc Hmore]%not_elem_of_cons.
    destruct (decide (c = LF)); [congruence|]. by rewrite IH.
Qed.

Lemma split_lines_join lines :
  lines ≠ [] → Forall (λ line, LF ∉ line) lines →
  split_lines (join_lines lines) = lines.
Proof.
  induction lines as [|line more IH]; [done|].
  intros _ [Hline Hmore]%Forall_cons.
  destruct more as [|line' more].
  - simpl. by apply split_lines_no_LF.
  - change (join_lines (line :: line' :: more))
      with (line ++ LF :: join_lines (line' :: more)).
    rewrite split_lines_app_LF by done. by rewrite IH.
Qed.

Lemma split_lines_nonempty input : split_lines input ≠ [].
Proof.
  destruct input as [|c rest]; simpl; [done|].
  destruct (decide (c = LF)); [done|]. by destruct (split_lines rest).
Qed.

End Lines.

(** C9, as stated, fails: a function that turns spaces into line feeds makes
    two lines out of one. *)
Lemma line_count_counterexample :
  let f : CaseFunction := fmap (λ c, if c =? SPACE then LF else c) in
  modifyCasesWrapper (js "a b") f = [97; LF; 98]
  ∧ line_count (js "a b") = 1%nat
  ∧ line_count (modifyCasesWrapper (js "a b") f) = 2%nat
  ∧ ¬ (∀ (input : jsstring) (g : CaseFunction),
         modifyCasesWrapper input g = spec_transform input g
         ∧ line_count (modifyCasesWrapper input g) = line_count input).
Proof.
  intros f. split; [reflexivity|]. split; [reflexivity|]. split; [reflexivity|].
  intros H. destruct (H (js "a b") f) as [_ Hcount]. discriminate Hcount.
Qed.

(** C9 (amended). The wrapper returns the lines of the input, each mapped by
    the case function, joined with line feeds; when the function puts no line
    feed in the lines it returns, the output has as many lines as the
    input. *)
Theorem modifyCasesWrapper_lines (input : jsstring) (f : CaseFunction) :
  modifyCasesWrapper input f = spec_transform input f
  ∧ (Forall (λ line, LF ∉ f line) (split_lines input) →
     split_lines (modifyCasesWrapper input f) = f <$> split_lines input
     ∧ line_count (modifyCasesWrapper input f) = line_count input).
Proof.
  split; [apply modifyCasesWrapper_spec|].
  intros Hf. rewrite modifyCasesWrapper_spec. unfold spec_transform, line_count.
  rewrite split_lines_join.
  - split; [done|]. by rewrite length_fmap.
  - pose proof (split_lines_nonempty input). by destruct (split_lines input).
  - by apply Forall_fmap.
Qed.

Lemma modifyCasesWrapper_lines_witness :
  let f : CaseFunction := fmap (λ c, if (97 <=? c) && (c <=? 122) then c - 32 else c) in
  let input := [97; 32; 98; LF; LF; 99] in
  Forall (λ line, LF ∉ f line) (split_lines input)
  ∧ modifyCasesWrapper input f = [65; 32; 66; LF; LF; 67]
  ∧ line_count (modifyCasesWrapper input f) = 3%nat.
Proof.
  intros f input.
  assert (Hf : Forall (λ line, LF ∉ f line) (split_lines input)).
  { apply (bool_decide_unpack _). vm_compute. exact I. }
  destruct (modifyCasesWrapper_lines input f) as [Hspec Hcount].
  destruct (Hcount Hf) as [_ Hn].
  exact (conj Hf (conj Hspec Hn)).
Defined.

(** ** JSON text: what is written is read back *)

Section QuoteParse.

Implicit Types (c d : N) (s rest : jsstring).

Lemma hex_value_digit d : d < 16 → hex_value (hex_digit d) = Some d.
Proof.
  intros Hd. destruct d as [|p]; [reflexivity|].
  do 4 (destruct p as [p|p|]; try reflexivity); lia.
Qed.

Lemma hex4_UnicodeEscape c :
  c < 65536 →
  hex4 (hex_digit (c / 4096 mod 16)) (hex_digit (c / 256 mod 16))
       (hex_digit (c / 16 mod 16)) (hex_digit (c mod 16)) = Some c.
Proof.
  intros Hc. unfold hex4.
  rewrite !hex_value_digit by (apply N.mod_lt; lia).
  f_equal.
  assert (E1 : c / 256 = c / 16 / 16) by (by rewrite N.Div0.div_div).
  assert (E2 : c / 4096 = c / 256 / 16) by (by rewrite N.Div0.div_div).
  assert (c / 4096 < 16) by (apply N.Div0.div_lt_upper_bound; lia).
  rewrite (N.mod_small (c / 4096) 16) by done.
  pose proof (N.Div0.div_mod c 16) as D0.
  pose proof (N.Div0.div_mod (c / 16) 16) as D1.
  pose proof (N.Div0.div_mod (c / 256) 16) as D2.
  rewrite <- E1 in D1. rewrite <- E2 in D2.
  lia.
Qed.

(** Reading back the escape of one code point. *)
Lemma parse_chars_quote_unit c rest :
  parse_chars (quote_unit c ++ rest) =
    match parse_chars rest with
    | Some (str, rest') => Some (c :: str, rest')
    | None => None
    end.
Proof.
  unfold quote_unit.
  destruct (N.eqb_spec c 8) as [->|?]; [reflexivity|].
  destruct (N.eqb_spec c TAB) as [->|?]; [reflexivity|].
  destruct (N.eqb_spec c LF) as [->|?]; [reflexivity|].
  destruct (N.eqb_spec c 12) as [->|?]; [reflexivity|].
  destruct (N.eqb_spec c CR) as [->|?]; [reflexivity|].
  destruct (N.eqb_spec c QUOTE) as [->|?]; [reflexivity|].
  destruct (N.eqb_spec c BACKSLASH) as [->|?]; [reflexivity|].
  destruct ((c <? SPACE) || is_leading_surrogate c || is_trailing_surrogate c)
    eqn:Hesc.
  - assert (Hc : c < 65536).
    { unfold is_leading_surrogate, is_trailing_surrogate in Hesc.
      apply orb_true_iff in Hesc as [Hesc|Hesc];
        [apply orb_true_iff in Hesc as [Hesc|Hesc]|].
      - apply N.ltb_lt in Hesc. lia.
      - apply andb_true_iff in Hesc as [_ Hesc]. apply N.leb_le in Hesc. lia.
      - apply andb_true_iff in Hesc as [_ Hesc]. apply N.leb_le in Hesc. lia. }
    unfold UnicodeEscape.
    change (parse_chars ([BACKSLASH; 117; hex_digit (c / 4096 mod 16);
              hex_digit (c / 256 mod 16); hex_digit (c / 16 mod 16);
              hex_digit (c mod 16)] ++ rest))
      with (match hex4 (hex_digit (c / 4096 mod 16)) (hex_digit (c / 256 mod 16))
                       (hex_digit (c / 16 mod 16)) (hex_digit (c mod 16)),
                  parse_chars rest with
            | Some u, Some (str, rest') => Some (u :: str, rest')
            | _, _ => None
            end).
    by rewrite hex4_UnicodeEscape.
  - apply orb_false_iff in Hesc as [Hesc _].
    apply orb_false_iff in Hesc as [Hesc _].
    simpl. rewrite Hesc.
    destruct (N.eqb_spec c QUOTE); [done|].
    destruct (N.eqb_spec c BACKSLASH); [done|]. done.
Qed.

(** A surrogate is neither a quote, a backslash nor a control character. *)
Lemma parse_chars_raw c rest :
  55296 <= c →
  parse_chars (c :: rest) =
    match parse_chars rest with
    | Some (str, rest') => Some (c :: str, rest')
    | None => None
    end.
Proof.
  intros Hc. simpl.
  destruct (N.eqb_spec c QUOTE); [lia|].
  destruct (N.eqb_spec c BACKSLASH); [lia|].
  destruct (N.ltb_spec c SPACE); [lia|]. done.
Qed.

Lemma parse_chars_quote_units_aux s :
  (∀ rest, parse_chars (quote_units s ++ QUOTE :: rest) = Some (s, rest))
  ∧ (∀ c rest,
       parse_chars (quote_units (c :: s) ++ QUOTE :: rest) = Some (c :: s, rest)).
Proof.
  induction s as [|d s [IH0 IH1]].
  - split; [reflexivity|]. intros c rest.
    change (quote_units [c]) with (quote_unit c).
    by rewrite parse_chars_quote_unit.
  - split; [exact (IH1 d)|]. intros c rest.
    change (quote_units (c :: d :: s))
      with (if is_leading_surrogate c && is_trailing_surrogate d
            then c :: d :: quote_units s
            else quote_unit c ++ quote_units (d :: s)).
    destruct (is_leading_surrogate c && is_trailing_surrogate d) eqn:Hpair.
    + apply andb_true_iff in Hpair as [Hc Hd].
      unfold is_leading_surrogate in Hc. unfold is_trailing_surrogate in Hd.
      apply andb_true_iff in Hc as [Hc%N.leb_le _].
      apply andb_true_iff in Hd as [Hd%N.leb_le _].
      change ((c :: d :: quote_units s) ++ QUOTE :: rest)
        with (c :: d :: (quote_units s ++ QUOTE :: rest)).
      rewrite (parse_chars_raw c) by lia.
      rewrite (parse_chars_raw d) by lia.
      by rewrite IH0.
    + rewrite <- app_assoc, parse_chars_quote_unit. by rewrite IH1.
Qed.

(** The characters written for a string read back as the string. *)
Lemma parse_chars_quote_units s rest :
  parse_chars (quote_units s ++ QUOTE :: rest) = Some (s, rest).
Proof. apply parse_chars_quote_units_aux. Qed.

Lemma parse_value_QuoteJSONString fuel s rest :
  parse_value (S fuel) (QuoteJSONString s ++ rest) = Parsed (JStr s) rest.
Proof.
  unfold QuoteJSONString.
  change ((QUOTE :: quote_units s ++ [QUOTE]) ++ rest)
    with (QUOTE :: ((quote_units s ++ [QUOTE]) ++ rest)).
  rewrite <- app_assoc. simpl.
  by rewrite parse_chars_quote_units.
Qed.

End QuoteParse.

Section ArrayParse.

Implicit Types (items : list jsstring) (x : jsstring) (rest : jsstring).

Lemma parse_elements_S fuel (s : jsstring) :
  parse_elements (S fuel) s =
    match parse_value fuel s with
    | Parsed v rest =>
        match skip_ws rest with
        | c :: r =>
            if c =? COMMA then
              match parse_elements fuel r with
              | Parsed l rest' => Parsed (v :: l) rest'
              | Reject => Reject
              | OutOfFuel => OutOfFuel
              end
            else if c =? RBRACKET then Parsed [v] r
            else Reject
        | [] => Reject
        end
    | Reject => Reject
    | OutOfFuel => OutOfFuel
    end.
Proof. reflexivity. Qed.

Lemma stringify_elements_cons x y items :
  stringify_elements (x :: y :: items) =
    QuoteJSONString x ++ COMMA :: stringify_elements (y :: items).
Proof. reflexivity. Qed.

Lemma parse_elements_stringify items : ∀ x fuel rest,
  (length items + 2 ≤ fuel)%nat →
  parse_elements fuel (stringify_elements (x :: items) ++ RBRACKET :: rest)
  = Parsed (JStr <$> (x :: items)) rest.
Proof.
  induction items as [|y items IH]; intros x fuel rest Hfuel.
  - destruct fuel as [|[|fuel]]; [simpl in Hfuel; lia..|].
    rewrite parse_elements_S.
    change (stringify_elements [x]) with (QuoteJSONString x).
    by rewrite parse_value_QuoteJSONString.
  - destruct fuel as [|[|fuel]]; [simpl in Hfuel; lia..|].
    rewrite parse_elements_S, stringify_elements_cons, <- app_assoc.
    rewrite parse_value_QuoteJSONString.
    change (skip_ws ((COMMA :: stringify_elements (y :: items)) ++ RBRACKET :: rest))
      with (COMMA :: (stringify_elements (y :: items) ++ RBRACKET :: rest)).
    change (COMMA =? COMMA) with true. cbv iota.
    rewrite IH by (simpl in Hfuel; lia). done.
Qed.

Lemma stringify_elements_head x items :
  ∃ tail, stringify_elements (x :: items) = QUOTE :: tail.
Proof. destruct items; eexists; reflexivity. Qed.

Lemma parse_value_stringify items fuel :
  (length items + 2 ≤ fuel)%nat →
  parse_value fuel (JSON_stringify items) = Parsed (json_of_cases items) [].
Proof.
  intros Hfuel. destruct fuel as [|fuel]; [lia|].
  unfold JSON_stringify. destruct items as [|x items]; [reflexivity|].
  pose proof (parse_elements_stringify items x fuel [] ltac:(simpl in Hfuel; lia)) as Hel.
  destruct (stringify_elements_head x items) as [tail Htail].
  rewrite Htail in Hel |- *. simpl. simpl in Hel. by rewrite Hel.
Qed.

Lemma length_stringify_elements items :
  (length items ≤ length (stringify_elements items))%nat.
Proof.
  induction items as [|x [|y items] IH]; [simpl; lia..|].
  rewrite stringify_elements_cons, length_app.
  change (length (x :: y :: items)) with (S (length (y :: items))).
  change (length (COMMA :: stringify_elements (y :: items)))
    with (S (length (stringify_elements (y :: items)))).
  lia.
Qed.

(** [JSON.parse(JSON.stringify(items))] for an array of strings. *)
Lemma JSON_parse_stringify items :
  JSON_parse (JSON_stringify items) = Ok (json_of_cases items).
Proof.
  unfold JSON_parse. rewrite parse_value_stringify; [done|].
  unfold parse_fuel, JSON_stringify. simpl. rewrite length_app.
  pose proof (length_stringify_elements items). lia.
Qed.

Lemma json_of_cases_inj items items' :
  json_of_cases items = json_of_cases items' → items = items'.
Proof.
  unfold json_of_cases. intros H. injection H as H.
  revert items' H. induction items as [|x items IH]; intros [|y items'] H;
    simpl in H; try discriminate; [done|].
  injection H as -> H. f_equal. by apply IH.
Qed.

End ArrayParse.

(** ** The recursion budget of [JSON_parse] is never exhausted *)

Section Fuel.

Implicit Types (s rest : jsstring).

Lemma skip_ws_length s : (length (skip_ws s) ≤ length s)%nat.
Proof.
  induction s as [|c s IH]; simpl; [lia|].
  destruct (is_ws c); simpl; lia.
Qed.

Lemma skip_ws_cons s c r : skip_ws s = c :: r → (length r < length s)%nat.
Proof.
  intros H. pose proof (skip_ws_length s) as Hlen.
  rewrite H in Hlen. simpl in Hlen. lia.
Qed.

Lemma parse_chars_length s : ∀ str rest,
  parse_chars s = Some (str, rest) → (length rest < length s)%nat.
Proof.
  induction s as [s IH] using (induction_ltof1 _ (@length N)).
  unfold ltof in IH. intros str rest H.
  destruct s as [|c r]; [discriminate|]. simpl in H.
  destruct (c =? QUOTE).
  { injection H as _ <-. simpl. lia. }
  destruct (c =? BACKSLASH).
  - destruct r as [|e r1]; [discriminate|].
    destruct (e =? 117).
    + destruct r1 as [|h1 [|h2 [|h3 [|h4 r2]]]]; try discriminate.
      destruct (hex4 h1 h2 h3 h4); [|discriminate].
      destruct (parse_chars r2) as [[str' rest']|] eqn:Hr2; [|discriminate].
      injection H as _ <-. apply IH in Hr2; simpl in *; lia.
    + destruct (unescape e); [|discriminate].
      destruct (parse_chars r1) as [[str' rest']|] eqn:Hr1; [|discriminate].
      injection H as _ <-. apply IH in Hr1; simpl in *; lia.
  - destruct (c <? SPACE); [discriminate|].
    destruct (parse_chars r) as [[str' rest']|] eqn:Hr; [|discriminate].
    injection H as _ <-. apply IH in Hr; simpl in *; lia.
Qed.

Lemma span_digits_length s ds rest :
  span_digits s = (ds, rest) → (length rest ≤ length s)%nat.
Proof.
  revert ds rest. induction s as [|c s IH]; intros ds rest H; simpl in H.
  - injection H as _ <-. done.
  - destruct (is_digit c).
    + destruct (span_digits s) as [ds' rest'] eqn:Hs.
      injection H as _ <-. specialize (IH _ _ eq_refl). simpl. lia.
    + injection H as _ <-. done.
Qed.

Lemma digits1_length s ds rest :
  digits1 s = Some (ds, rest) → (length rest ≤ length s)%nat.
Proof.
  unfold digits1. destruct (span_digits s) as [ds' rest'] eqn:Hs.
  apply span_digits_length in Hs.
  destruct ds'; [discriminate|]. intros H. injection H as _ <-. done.
Qed.

Lemma parse_int_length s i rest :
  parse_int s = Some (i, rest) → (length rest < length s)%nat.
Proof.
  unfold parse_int.
  destruct s as [|c r]; [discriminate|].
  destruct (c =? 45).
  - destruct r as [|c' r']; [discriminate|].
    destruct (c' =? 48); [intros H; injection H as _ <-; simpl; lia|].
    destruct (is_digit c'); [|discriminate].
    destruct (span_digits r') as [ds rest'] eqn:Hs.
    apply span_digits_length in Hs.
    intros H. injection H as _ <-. simpl. lia.
  - destruct (c =? 48); [intros H; injection H as _ <-; simpl; lia|].
    destruct (is_digit c); [|discriminate].
    destruct (span_digits r) as [ds rest'] eqn:Hs.
    apply span_digits_length in Hs.
    intros H. injection H as _ <-. simpl. lia.
Qed.

Lemma parse_frac_length s f rest :
  parse_frac s = Some (f, rest) → (length rest ≤ length s)%nat.
Proof.
  unfold parse_frac. destruct s as [|c r]; [intros H; by injection H as _ <-|].
  destruct (c =? 46).
  - destruct (digits1 r) as [[ds rest']|] eqn:Hd; [|discriminate].
    apply digits1_length in Hd. intros H. injection H as _ <-. simpl. lia.
  - intros H. by injection H as _ <-.
Qed.

Lemma parse_exp_length s e rest :
  parse_exp s = Some (e, rest) → (length rest ≤ length s)%nat.
Proof.
  unfold parse_exp. destruct s as [|c r]; [intros H; by injection H as _ <-|].
  destruct ((c =? 101) || (c =? 69)).
  - destruct r as [|d r'].
    + destruct (digits1 []) as [[ds rest']|] eqn:Hd; [|discriminate].
      apply digits1_length in Hd. intros H. injection H as _ <-. simpl in *. lia.
    + destruct ((d =? 43) || (d =? 45)).
      * destruct (digits1 r') as [[ds rest']|] eqn:Hd; [|discriminate].
        apply digits1_length in Hd. intros H. injection H as _ <-. simpl. lia.
      * destruct (digits1 (d :: r')) as [[ds rest']|] eqn:Hd; [|discriminate].
        apply digits1_length in Hd. intros H. injection H as _ <-. simpl in *. lia.
  - intros H. by injection H as _ <-.
Qed.

Lemma parse_number_length s n rest :
  parse_number s = Some (n, rest) → (length rest < length s)%nat.
Proof.
  unfold parse_number. intros H.
  destruct (parse_int s) as [[i s1]|] eqn:Hi; [|discriminate].
  simpl in H.
  destruct (parse_frac s1) as [[f s2]|] eqn:Hf; [|discriminate].
  simpl in H.
  destruct (parse_exp s2) as [[e s3]|] eqn:He; [|discriminate].
  simpl in H. injection H as _ <-.
  apply parse_int_length in Hi. apply parse_frac_length in Hf.
  apply parse_exp_length in He. lia.
Qed.

Lemma parse_literal_length s v rest :
  parse_literal s = Some (v, rest) → (length rest < length s)%nat.
Proof.
  unfold parse_literal. intros H.
  repeat case_match; try discriminate; injection H as _ <-; subst; simpl; lia.
Qed.

Lemma of_option_Parsed {A B : Type} (f : A → B) (o : option (A * jsstring)) b rest :
  of_option (prod_map f id <$> o) = Parsed b rest →
  ∃ a, o = Some (a, rest) ∧ b = f a.
Proof.
  destruct o as [[a r]|]; simpl; [|discriminate].
  intros H. injection H as <- <-. by exists a.
Qed.

Lemma of_option_fuel {A : Type} (o : option (A * jsstring)) :
  of_option o ≠ OutOfFuel.
Proof. by destruct o as [[a r]|]. Qed.

(** Collects what the hypotheses say about lengths. *)
Ltac lengths :=
  repeat match goal with
  | H : skip_ws _ = _ :: _ |- _ => apply skip_ws_cons in H
  | H : parse_chars _ = Some _ |- _ => apply parse_chars_length in H
  | H : parse_number _ = Some _ |- _ => apply parse_number_length in H
  | H : parse_literal _ = Some _ |- _ => apply parse_literal_length in H
  end;
  simpl in *; try lia.

#[local] Arguments parse_literal : simpl never.
#[local] Arguments parse_number : simpl never.

(** Every successful parse consumes at least one character. *)
Lemma parse_consumes fuel :
  (∀ s v rest, parse_value fuel s = Parsed v rest → (length rest < length s)%nat)
  ∧ (∀ s l rest, parse_elements fuel s = Parsed l rest → (length rest < length s)%nat)
  ∧ (∀ s l rest, parse_members fuel s = Parsed l rest → (length rest < length s)%nat).
Proof.
  induction fuel as [|fuel (IHv & IHe & IHm)]; [by repeat split|].
  repeat split.
  - intros s v rest H. simpl in H.
    destruct (skip_ws s) as [|c r] eqn:Hs; [discriminate|].
    destruct (c =? LBRACKET).
    { destruct (skip_ws r) as [|c' r'] eqn:Hr; [discriminate|].
      destruct (c' =? RBRACKET); [injection H as _ <-; lengths|].
      destruct (parse_elements fuel r) as [l rest'| |] eqn:Hel; try discriminate.
      injection H as _ <-. apply IHe in Hel. lengths. }
    destruct (c =? LBRACE).
    { destruct (skip_ws r) as [|c' r'] eqn:Hr; [discriminate|].
      destruct (c' =? RBRACE); [injection H as _ <-; lengths|].
      destruct (parse_members fuel r) as [l rest'| |] eqn:Hel; try discriminate.
      injection H as _ <-. apply IHm in Hel. lengths. }
    destruct (c =? QUOTE).
    { apply of_option_Parsed in H as (str & H & _). lengths. }
    destruct ((c =? 45) || is_digit c).
    { apply of_option_Parsed in H as (n & H & _). lengths. }
    destruct (parse_literal (c :: r)) as [[v' rest']|] eqn:Hl;
      simpl in H; [|discriminate].
    injection H as _ <-. apply parse_literal_length in Hl. simpl in Hl. lengths.
  - intros s l rest H. simpl in H.
    destruct (parse_value fuel s) as [v rest0| |] eqn:Hv; try discriminate.
    apply IHv in Hv.
    destruct (skip_ws rest0) as [|c r] eqn:Hs; [discriminate|].
    destruct (c =? COMMA).
    { destruct (parse_elements fuel r) as [l' rest'| |] eqn:Hel; try discriminate.
      injection H as _ <-. apply IHe in Hel. lengths. }
    destruct (c =? RBRACKET); [|discriminate].
    injection H as _ <-. lengths.
  - intros s l rest H. simpl in H.
    destruct (skip_ws s) as [|q r0] eqn:Hs; [discriminate|].
    destruct (q =? QUOTE); [|discriminate].
    destruct (parse_chars r0) as [[key rest0]|] eqn:Hk; [|discriminate].
    destruct (skip_ws rest0) as [|k r1] eqn:Hs1; [discriminate|].
    destruct (k =? COLON); [|discriminate].
    destruct (parse_value fuel r1) as [v rest1| |] eqn:Hv; try discriminate.
    apply IHv in Hv.
    destruct (skip_ws rest1) as [|c r] eqn:Hs2; [discriminate|].
    destruct (c =? COMMA).
    { destruct (parse_members fuel r) as [l' rest'| |] eqn:Hel; try discriminate.
      injection H as _ <-. apply IHm in Hel. lengths. }
    destruct (c =? RBRACE); [|discriminate].
    injection H as _ <-. lengths.
Qed.

(** Two units for each character (and one more) are enough. *)
Lemma parse_fuel_suffices fuel :
  (∀ s, (2 * length s < fuel)%nat → parse_value fuel s ≠ OutOfFuel)
  ∧ (∀ s, (2 * length s + 1 < fuel)%nat → parse_elements fuel s ≠ OutOfFuel)
  ∧ (∀ s, (2 * length s + 1 < fuel)%nat → parse_members fuel s ≠ OutOfFuel).
Proof.
  induction fuel as [|fuel (IHv & IHe & IHm)]; [repeat split; intros; lia|].
  destruct (parse_consumes fuel) as (Cv & Ce & Cm).
  repeat split.
  - intros s Hlen. simpl.
    destruct (skip_ws s) as [|c r] eqn:Hs; [done|].
    destruct (c =? LBRACKET).
    { destruct (skip_ws r) as [|c' r'] eqn:Hr; [done|].
      destruct (c' =? RBRACKET); [done|].
      destruct (parse_elements fuel r) as [l rest'| |] eqn:Hel; try done.
      exfalso. revert Hel. apply IHe. lengths. }
    destruct (c =? LBRACE).
    { destruct (skip_ws r) as [|c' r'] eqn:Hr; [done|].
      destruct (c' =? RBRACE); [done|].
      destruct (parse_members fuel r) as [l rest'| |] eqn:Hel; try done.
      exfalso. revert Hel. apply IHm. lengths. }
    destruct (c =? QUOTE); [apply of_option_fuel|].
    destruct ((c =? 45) || is_digit c); apply of_option_fuel.
  - intros s Hlen. simpl.
    destruct (parse_value fuel s) as [v rest0| |] eqn:Hv; try done.
    + apply Cv in Hv.
      destruct (skip_ws rest0) as [|c r] eqn:Hs; [done|].
      destruct (c =? COMMA).
      { destruct (parse_elements fuel r) as [l' rest'| |] eqn:Hel; try done.
        exfalso. revert Hel. apply IHe. lengths. }
      by destruct (c =? RBRACKET).
    + exfalso. revert Hv. apply IHv. lia.
  - intros s Hlen. simpl.
    destruct (skip_ws s) as [|q r0] eqn:Hs; [done|].
    destruct (q =? QUOTE); [|done].
    destruct (parse_chars r0) as [[key rest0]|] eqn:Hk; [|done].
    destruct (skip_ws rest0) as [|k r1] eqn:Hs1; [done|].
    destruct (k =? COLON); [|done].
    destruct (parse_value fuel r1) as [v rest1| |] eqn:Hv; try done.
    + apply Cv in Hv.
      destruct (skip_ws rest1) as [|c r] eqn:Hs2; [done|].
      destruct (c =? COMMA).
      { destruct (parse_members fuel r) as [l' rest'| |] eqn:Hel; try done.
        exfalso. revert Hel. apply IHm. lengths. }
      by destruct (c =? RBRACE).
    + exfalso. revert Hv. apply IHv. lengths.
Qed.

(** [JSON_parse] never runs out of budget: it rejects a text only for its
    syntax. *)
Lemma parse_fuel_enough (text : jsstring) :
  parse_value (parse_fuel text) text ≠ OutOfFuel.
Proof. apply parse_fuel_suffices. unfold parse_fuel. lia. Qed.

End Fuel.

(** ** The stored lists *)

Section Persistence.

Implicit Types (cache : Cache) (items : list CaseType) (stored : jsstring).

Lemma getPinnedCases_set items cache :
  getPinnedCases (setPinnedCases items cache) = Ok (json_of_cases items).
Proof.
  unfold getPinnedCases, setPinnedCases. rewrite lookup_insert_eq. simpl.
  apply JSON_parse_stringify.
Qed.

Lemma getRecentCases_set items cache :
  getRecentCases (setRecentCases items cache) = Ok (json_of_cases items).
Proof.
  unfold getRecentCases, setRecentCases. rewrite lookup_insert_eq. simpl.
  apply JSON_parse_stringify.
Qed.

Lemma getPinnedCases_setRecent items cache :
  getPinnedCases (setRecentCases items cache) = getPinnedCases cache.
Proof.
  unfold getPinnedCases, setRecentCases. by rewrite lookup_insert_ne.
Qed.

Lemma getRecentCases_setPinned items cache :
  getRecentCases (setPinnedCases items cache) = getRecentCases cache.
Proof.
  unfold getRecentCases, setPinnedCases. by rewrite lookup_insert_ne.
Qed.

(** What a launch reads after the lists were written through. *)
Lemma load_persist (s : State) cache :
  getPinnedCases (persist s cache) = Ok (json_of_cases (pinned s))
  ∧ getRecentCases (persist s cache) = Ok (json_of_cases (recent s)).
Proof.
  unfold persist. split.
  - by rewrite getPinnedCases_setRecent, getPinnedCases_set.
  - by rewrite getRecentCases_set.
Qed.

Lemma JSON_parse_exn stored e : JSON_parse stored = Throw e → e = SyntaxError.
Proof.
  unfold JSON_parse. intros H.
  repeat case_match; congruence.
Qed.

Lemma getPinnedCases_stored cache stored :
  cache !! "pinned"%string = Some stored →
  getPinnedCases cache =
    if truthy_string stored then JSON_parse stored else Ok (json_of_cases []).
Proof. unfold getPinnedCases. by intros ->. Qed.

End Persistence.

(** C6. Writing a list of identifiers with [setPinnedCases] (or
    [setRecentCases]) and reading it with [getPinnedCases] (or
    [getRecentCases]) gives back the array of the same strings in the same
    order, whatever the code units of the strings. *)
Theorem load_save_roundtrip (items : list CaseType) (cache : Cache) :
  getPinnedCases (setPinnedCases items cache) = Ok (JArr (JStr <$> items))
  ∧ getRecentCases (setRecentCases items cache) = Ok (JArr (JStr <$> items))
  ∧ JSON_parse (JSON_stringify items) = Ok (json_of_cases items).
Proof.
  split; [apply getPinnedCases_set|].
  split; [apply getRecentCases_set|].
  apply JSON_parse_stringify.
Qed.

(** C4, as stated, fails: a truncated array stored under ["pinned"] makes
    [getPinnedCases] throw, and a JSON text of another shape is returned as
    it is. *)
Lemma getPinnedCases_malformed_counterexample :
  let truncated : Cache := {[ "pinned"%string := jsq "['camelCase'" ]} in
  let object : Cache := {[ "pinned"%string := jsq "{'camelCase': true}" ]} in
  ¬ valid_serialized (jsq "['camelCase'")
  ∧ getPinnedCases truncated = Throw SyntaxError
  ∧ ¬ valid_serialized (jsq "{'camelCase': true}")
  ∧ getPinnedCases object = Ok (JObj [(js "camelCase", JBool true)])
  ∧ ¬ (∀ (cache : Cache) (stored : jsstring),
         cache !! "pinned"%string = Some stored → ¬ valid_serialized stored →
         getPinnedCases cache = Ok (json_of_cases [])).
Proof.
  intros truncated object.
  assert (Ht : getPinnedCases truncated = Throw SyntaxError).
  { unfold getPinnedCases, truncated. rewrite lookup_singleton_eq. reflexivity. }
  assert (Hv : ¬ valid_serialized (jsq "['camelCase'")).
  { intros [items H]. vm_compute in H. discriminate H. }
  split; [exact Hv|]. split; [exact Ht|].
  split. { intros [items H]. vm_compute in H. discriminate H. }
  split. { unfold getPinnedCases, object. rewrite lookup_singleton_eq. reflexivity. }
  intros H.
  specialize (H truncated (jsq "['camelCase'") (lookup_singleton_eq _ _) Hv).
  rewrite Ht in H. discriminate H.
Qed.

(** C4 (amended). For a stored string under ["pinned"] that is not the
    serialization of a list of identifiers, [getPinnedCases] yields the
    empty list only when the string is empty; for a non-empty one it does
    what [JSON.parse] does: it throws a syntax error when the text is not
    JSON and otherwise returns the parsed value, which is not a list of
    identifiers. *)
Theorem getPinnedCases_malformed (cache : Cache) (stored : jsstring) :
  cache !! "pinned"%string = Some stored → ¬ valid_serialized stored →
  (stored = [] ∧ getPinnedCases cache = Ok (json_of_cases []))
  ∨ (stored ≠ [] ∧ getPinnedCases cache = JSON_parse stored
     ∧ (JSON_parse stored = Throw SyntaxError
        ∨ ∃ v, JSON_parse stored = Ok v ∧ ∀ items, v ≠ json_of_cases items)).
Proof.
  intros Hget Hinvalid. rewrite (getPinnedCases_stored cache stored Hget).
  destruct stored as [|c stored]; [by left|].
  right. split; [done|]. split; [done|].
  destruct (JSON_parse (c :: stored)) as [v|e] eqn:Hparse.
  - right. exists v. split; [done|]. intros items ->.
    apply Hinvalid. by exists items.
  - left. by rewrite (JSON_parse_exn _ _ Hparse).
Qed.

Lemma getPinnedCases_malformed_witness :
  let stored := jsq "['camelCase', 7]" in
  let cache : Cache := {[ "pinned"%string := stored ]} in
  cache !! "pinned"%string = Some stored
  ∧ ¬ valid_serialized stored
  ∧ getPinnedCases cache = Ok (JArr [JStr (js "camelCase"); JNum (js "7")]).
Proof.
  intros stored cache.
  assert (Hget : cache !! "pinned"%string = Some stored)
    by apply lookup_singleton_eq.
  assert (Hv : ¬ valid_serialized stored).
  { intros [items H]. vm_compute in H. injection H as H.
    destruct items as [|x [|y items]]; discriminate H. }
  destruct (getPinnedCases_malformed cache stored Hget Hv) as [[He _]|(_ & Heq & _)].
  - discriminate He.
  - exact (conj Hget (conj Hv Heq)).
Defined.

(** ** The two lists together *)

Section Session.

Context `{env : Env}.

Implicit Types (s : State) (props : Props) (a : Action).

(** The section an item was rendered in. *)
Lemma elem_of_render s props :
  props ∈ render s ↔
    (props = {| p_case := p_case props; p_pinned := Some true; p_recent := None |}
     ∧ p_case props ∈ pinned s)
    ∨ (props = {| p_case := p_case props; p_pinned := None; p_recent := Some true |}
       ∧ p_case props ∈ recent s)
    ∨ (props = {| p_case := p_case props; p_pinned := None; p_recent := None |}
       ∧ (p_case props ∉ recent s) ∧ (p_case props ∉ pinned s)
       ∧ preferences_truthy (remove_spaces (p_case props)) = true
       ∧ p_case props ∈ functions).
Proof.
  unfold render. rewrite !elem_of_app, !list_elem_of_fmap.
  setoid_rewrite list_elem_of_filter. unfold includes.
  setoid_rewrite bool_decide_eq_false.
  split.
  - intros [[key [-> Hkey]] | [[key [-> Hkey]] | [key [-> Hkey]]]]; simpl.
    + by left.
    + right. by left.
    + destruct Hkey as [(Hpref & Hrecent & Hpinned) Hfun].
      right. right. done.
  - intros [[-> Hkey] | [[-> Hkey] | [-> Hkey]]]; simpl in *.
    + left. by eexists.
    + right. left. by eexists.
    + destruct Hkey as (Hrecent & Hpinned & Hpref & Hfun).
      right. right. eexists. split; [reflexivity|]. done.
Qed.

(** Pin Case is only in the panel of an item that is not shown as pinned. *)
Lemma PinCase_offered props :
  PinCase ∈ CaseItem_actions props ↔ truthy_flag (p_pinned props) = false.
Proof.
  unfold CaseItem_actions.
  destruct (truthy_flag (p_pinned props)); simpl; split.
  - intros Hin. exfalso.
    destruct (truthy_flag (p_recent props)), frontmostApp,
      (decide (preferences_action = js "paste")),
      (decide (preferences_action = js "copy"));
      apply (bool_decide_pack _) in Hin; vm_compute in Hin; destruct Hin.
  - discriminate.
  - reflexivity.
  - intros _. apply elem_of_app. right. apply elem_of_cons. right.
    apply elem_of_app. right. by left.
Qed.

(** Where the identifier of a rendered item is, by its [pinned] prop. *)
Lemma render_shown_pinned s props :
  props ∈ render s → truthy_flag (p_pinned props) = true →
  p_case props ∈ pinned s.
Proof.
  rewrite elem_of_render.
  intros [[-> Hin] | [[-> Hin] | [-> Hin]]] Hflag; simpl in *;
    [done | discriminate Hflag | discriminate Hflag].
Qed.

Lemma render_not_shown_pinned s props :
  exclusive s → props ∈ render s → truthy_flag (p_pinned props) = false →
  (p_case props ∉ pinned s)
  ∧ (if truthy_flag (p_recent props) then p_case props ∈ recent s
     else p_case props ∉ recent s).
Proof.
  intros Hex. rewrite elem_of_render.
  intros [[-> Hin] | [[-> Hin] | [-> Hin]]] Hflag; simpl in *.
  - discriminate Hflag.
  - split; [|done]. intros Hp. by apply (Hex _ Hp).
  - destruct Hin as (Hrecent & Hpinned & _). done.
Qed.

Lemma exclusive_filter_recent s id :
  exclusive s →
  exclusive {| pinned := id :: pinned s;
               recent := filter (λ c, c ≠ id) (recent s) |}.
Proof.
  intros Hex x. simpl. rewrite elem_of_cons, list_elem_of_filter.
  intros [-> | Hx] [Hne Hin]; [done|]. by apply (Hex x).
Qed.

(** Every action of a rendered item keeps the invariant. *)
Lemma action_invariant s props a :
  invariant s → props ∈ render s → a ∈ CaseItem_actions props →
  invariant (onAction a props s).
Proof.
  intros (Hp & Hr & Hlen & Hex) Hprops Ha.
  destruct a; simpl.
  - (* CopyToClipboard *)
    unfold CopyToClipboard_onAction.
    destruct (truthy_flag (p_pinned props)) eqn:Hflag; simpl; [done|].
    destruct (render_not_shown_pinned s props Hex Hprops Hflag) as [Hnp _].
    split; [done|]. split; [by apply use_recent_NoDup|].
    split; [apply (use_recent_length (p_case props))|].
    intros x Hx Hin. simpl in Hx, Hin.
    apply use_recent_elem in Hin as [-> | Hin]; [done|]. by apply (Hex x).
  - (* PasteToActiveApp *)
    unfold PasteToActiveApp_onAction.
    destruct (truthy_flag (p_pinned props)) eqn:Hflag; simpl; [done|].
    destruct (render_not_shown_pinned s props Hex Hprops Hflag) as [Hnp _].
    split; [done|]. split; [by apply use_recent_NoDup|].
    split; [apply (use_recent_length (p_case props))|].
    intros x Hx Hin. simpl in Hx, Hin.
    apply use_recent_elem in Hin as [-> | Hin]; [done|]. by apply (Hex x).
  - (* PinCase *)
    apply PinCase_offered in Ha.
    destruct (render_not_shown_pinned s props Hex Hprops Ha) as [Hnp Hrecent].
    unfold PinCase_onAction.
    destruct (truthy_flag (p_recent props)).
    + split; [by apply NoDup_cons|]. simpl.
      split; [by apply NoDup_filter|].
      split; [pose proof (length_filter (λ c, c ≠ p_case props) (recent s)); lia|].
      by apply exclusive_filter_recent.
    + split; [by apply NoDup_cons|]. simpl.
      split; [done|]. split; [done|].
      intros x. simpl. rewrite elem_of_cons. intros [-> | Hx]; [done|].
      by apply Hex.
  - (* RemovePinnedCase *)
    unfold RemovePinnedCase_onAction.
    split; [by apply NoDup_filter|]. simpl.
    split; [done|]. split; [done|].
    intros x. simpl. rewrite list_elem_of_filter. intros [_ Hx]. by apply Hex.
  - (* ClearPinnedCases *)
    unfold ClearPinnedCases_onAction.
    split; [constructor|]. simpl. split; [done|]. split; [done|].
    intros x Hx. simpl in Hx. by apply elem_of_nil in Hx.
  - (* RemoveRecentCase *)
    unfold RemoveRecentCase_onAction.
    split; [done|]. simpl. split; [by apply NoDup_filter|].
    split; [pose proof (length_filter (λ c, c ≠ p_case props) (recent s)); lia|].
    intros x Hx. simpl in *. rewrite list_elem_of_filter. intros [_ Hin].
    by apply (Hex x).
  - (* ClearRecentCases *)
    unfold ClearRecentCases_onAction.
    split; [done|]. simpl. split; [constructor|]. split; [lia|].
    intros x Hx. simpl. apply not_elem_of_nil.
  - (* CreateQuicklink *)
    done.
Qed.

(** A launch reads back the lists it had. *)
Lemma launch_same_state s cache p r :
  getPinnedCases (persist s cache) = Ok (json_of_cases p) →
  getRecentCases (persist s cache) = Ok (json_of_cases r) →
  {| pinned := p; recent := r |} = s.
Proof.
  destruct (load_persist s cache) as [-> ->]. intros Hp Hr.
  assert (Ep : json_of_cases (pinned s) = json_of_cases p) by congruence.
  assert (Er : json_of_cases (recent s) = json_of_cases r) by congruence.
  apply json_of_cases_inj in Ep as <-. apply json_of_cases_inj in Er as <-.
  by destruct s.
Qed.

Lemma step_invariant s s' : invariant s → step s s' → invariant s'.
Proof.
  intros Hinv [props a Hprops Ha | cache p r Hp Hr].
  - by apply action_invariant.
  - by rewrite (launch_same_state s cache p r Hp Hr).
Qed.

(** In every state of a session that starts with empty lists, both lists
    are duplicate-free, the recent list has at most four elements and no
    identifier is in both. *)
Lemma reachable_invariant s : reachable s → invariant s.
Proof.
  unfold reachable. revert s. apply rtc_ind_r.
  - split; [constructor|]. split; [constructor|]. split; [simpl; lia|].
    intros x Hx. simpl in Hx. by apply elem_of_nil in Hx.
  - intros s s' _ Hstep Hinv. by apply (step_invariant s).
Qed.

End Session.

(** C3. Pinning an identifier that is in the recent list, through the Pin
    Case action of its rendered item, removes it from the recent list and
    makes it the first element of the pinned list; the action keeps the two
    lists without a common identifier, so after it, in a session that
    started with empty lists, no identifier is in both. *)
Theorem pin_recent_moves_to_pinned `{env : Env} (s : State) (props : Props) :
  props ∈ render s → PinCase ∈ CaseItem_actions props → p_case props ∈ recent s →
  (p_case props ∉ recent (onAction PinCase props s))
  ∧ head (pinned (onAction PinCase props s)) = Some (p_case props)
  ∧ (exclusive s → exclusive (onAction PinCase props s))
  ∧ (reachable s → exclusive (onAction PinCase props s)).
Proof.
  intros Hprops Ha Hin.
  assert (Hflag : truthy_flag (p_recent props) = true).
  { apply PinCase_offered in Ha.
    apply elem_of_render in Hprops as [[Heq _] | [[Heq _] | [Heq [Hout _]]]].
    - rewrite Heq in Ha. discriminate Ha.
    - by rewrite Heq.
    - done. }
  simpl. unfold PinCase_onAction. rewrite Hflag. simpl.
  split; [apply not_elem_of_filter_ne|]. split; [reflexivity|].
  split; [apply exclusive_filter_recent|].
  intros Hreach. apply exclusive_filter_recent.
  by destruct (reachable_invariant s Hreach) as (_ & _ & _ & Hex).
Qed.

Lemma pin_recent_moves_to_pinned_witness :
  let props := {| p_case := js "camelCase"; p_pinned := None; p_recent := Some true |} in
  let s := {| pinned := [js "snake_case"]; recent := [js "Title Case"; js "camelCase"] |} in
  props ∈ @render example_env s
  ∧ PinCase ∈ @CaseItem_actions example_env props
  ∧ p_case props ∈ recent s
  ∧ (p_case props ∉ recent (onAction PinCase props s))
  ∧ onAction PinCase props s =
      {| pinned := [js "camelCase"; js "snake_case"]; recent := [js "Title Case"] |}.
Proof.
  intros props s.
  assert (Hprops : props ∈ @render example_env s).
  { apply (bool_decide_unpack _). vm_compute. exact I. }
  assert (Ha : PinCase ∈ @CaseItem_actions example_env props).
  { apply (bool_decide_unpack _). vm_compute. exact I. }
  assert (Hin : p_case props ∈ recent s).
  { apply (bool_decide_unpack _). vm_compute. exact I. }
  destruct (@pin_recent_moves_to_pinned example_env s props Hprops Ha Hin)
    as (Hout & _).
  exact (conj Hprops (conj Ha (conj Hin (conj Hout eq_refl)))).
Defined.

(** C5, as stated, fails: the handler of Pin Case prepends the identifier
    without looking for it, so when the two lists hold the same identifier
    the recent item offers Pin Case and running it leaves the identifier
    twice in the pinned list. *)
Lemma pin_twice_counterexample :
  let props := {| p_case := js "camelCase"; p_pinned := None; p_recent := Some true |} in
  let s := {| pinned := [js "camelCase"]; recent := [js "camelCase"] |} in
  p_case props ∈ pinned s
  ∧ props ∈ @render example_env s
  ∧ PinCase ∈ @CaseItem_actions example_env props
  ∧ pinned (onAction PinCase props s) = [js "camelCase"; js "camelCase"]
  ∧ ¬ (∀ (s : State) (props : Props),
         props ∈ @render example_env s →
         PinCase ∈ @CaseItem_actions example_env props →
         p_case props ∈ pinned s →
         pinned (onAction PinCase props s) = pinned s).
Proof.
  intros props s.
  assert (Hin : p_case props ∈ pinned s) by (by left).
  assert (Hprops : props ∈ @render example_env s).
  { apply (bool_decide_unpack _). vm_compute. exact I. }
  assert (Ha : PinCase ∈ @CaseItem_actions example_env props).
  { apply (bool_decide_unpack _). vm_compute. exact I. }
  split; [exact Hin|]. split; [exact Hprops|]. split; [exact Ha|].
  split; [reflexivity|].
  intros H. specialize (H s props Hprops Ha Hin). discriminate H.
Qed.

(** C5 (amended). In every state whose two lists hold no common identifier,
    no Pin Case action is offered on a rendered item whose identifier is in
    the pinned list; a Pin Case action that is offered is for an identifier
    that is not pinned, prepends it, leaves a pinned list that had no
    duplicate without duplicate and the two lists without common identifier,
    and after it no Pin Case action is offered for that identifier: a second
    pin cannot follow the first. *)
Theorem pin_offered_only_when_absent `{env : Env} (s : State) (props : Props) :
  exclusive s → props ∈ render s →
  (p_case props ∈ pinned s → PinCase ∉ CaseItem_actions props)
  ∧ (PinCase ∈ CaseItem_actions props →
     (p_case props ∉ pinned s)
     ∧ pinned (onAction PinCase props s) = p_case props :: pinned s
     ∧ (NoDup (pinned s) → NoDup (pinned (onAction PinCase props s)))
     ∧ exclusive (onAction PinCase props s)
     ∧ ∀ props', props' ∈ render (onAction PinCase props s) →
                 p_case props' = p_case props →
                 PinCase ∉ CaseItem_actions props').
Proof.
  intros Hex Hprops.
  assert (Habsent : ∀ s0 props0, exclusive s0 → props0 ∈ render s0 →
            p_case props0 ∈ pinned s0 → PinCase ∉ CaseItem_actions props0).
  { intros s0 props0 Hex0 Hprops0 Hpinned Ha.
    apply PinCase_offered in Ha.
    by destruct (render_not_shown_pinned s0 props0 Hex0 Hprops0 Ha) as [Hnp _]. }
  split; [by apply Habsent|].
  intros Ha.
  pose proof Ha as Hflag. apply PinCase_offered in Hflag.
  destruct (render_not_shown_pinned s props Hex Hprops Hflag) as [Hnp Hrecent].
  assert (Hex' : exclusive (onAction PinCase props s)).
  { simpl. unfold PinCase_onAction.
    destruct (truthy_flag (p_recent props)); [by apply exclusive_filter_recent|].
    intros x. simpl. rewrite elem_of_cons. intros [-> | Hx]; [done|].
    by apply Hex. }
  split; [done|]. split; [reflexivity|].
  split; [intros Hnd; simpl; by apply NoDup_cons|].
  split; [done|].
  intros props' Hprops' Hcase. apply (Habsent _ _ Hex' Hprops').
  rewrite Hcase. simpl. by left.
Qed.

Lemma pin_offered_only_when_absent_witness :
  let s := {| pinned := [js "camelCase"]; recent := [js "snake_case"] |} in
  let shown := {| p_case := js "camelCase"; p_pinned := Some true; p_recent := None |} in
  let item := {| p_case := js "snake_case"; p_pinned := None; p_recent := Some true |} in
  exclusive s
  ∧ shown ∈ @render example_env s
  ∧ p_case shown ∈ pinned s
  ∧ (PinCase ∉ @CaseItem_actions example_env shown)
  ∧ item ∈ @render example_env s
  ∧ PinCase ∈ @CaseItem_actions example_env item
  ∧ pinned (onAction PinCase item s) = [js "snake_case"; js "camelCase"]
  ∧ NoDup (pinned (onAction PinCase item s)).
Proof.
  intros s shown item.
  assert (Hex : exclusive s).
  { intros id Hin Hout. apply list_elem_of_singleton in Hin. subst id.
    apply (bool_decide_pack _) in Hout. vm_compute in Hout. exact Hout. }
  assert (Hshown : shown ∈ @render example_env s).
  { apply (bool_decide_unpack _). vm_compute. exact I. }
  assert (Hpinned : p_case shown ∈ pinned s) by (by left).
  assert (Hitem : item ∈ @render example_env s).
  { apply (bool_decide_unpack _). vm_compute. exact I. }
  assert (Ha : PinCase ∈ @CaseItem_actions example_env item).
  { apply (bool_decide_unpack _). vm_compute. exact I. }
  assert (Hnd : NoDup (pinned s)).
  { apply (bool_decide_unpack _). vm_compute. exact I. }
  destruct (@pin_offered_only_when_absent example_env s shown Hex Hshown)
    as [Hnot _].
  destruct (@pin_offered_only_when_absent example_env s item Hex Hitem)
    as [_ Hpin].
  destruct (Hpin Ha) as (_ & Heq & Hkeep & _).
  exact (conj Hex (conj Hshown (conj Hpinned (conj (Hnot Hpinned)
          (conj Hitem (conj Ha (conj Heq (Hkeep Hnd)))))))).
Defined.

(** * Further properties of the command *)

(** ** The order of the recent list *)

Section RecentOrder.

Implicit Types (id : CaseType) (items : list CaseType) (s : State).

Lemma move_to_front_Permutation id items :
  NoDup items → id ∈ items → id :: filter (λ c, c ≠ id) items ≡ₚ items.
Proof.
  induction items as [|x items IH]; intros Hnd Hin.
  - by apply elem_of_nil in Hin.
  - apply NoDup_cons in Hnd as [Hx Hnd].
    destruct (decide (x = id)) as [->|Hne].
    + rewrite filter_cons_False by (intros H; by apply H).
      by rewrite filter_ne_absent.
    + rewrite filter_cons_True by done.
      apply elem_of_cons in Hin as [Hin|Hin]; [congruence|].
      rewrite Permutation_swap. by rewrite IH.
Qed.

Lemma length_filter_present id items :
  NoDup items → id ∈ items →
  S (length (filter (λ c, c ≠ id) items)) = length items.
Proof.
  intros Hnd Hin.
  by rewrite <- (Permutation_length (move_to_front_Permutation id items Hnd Hin)).
Qed.

(** Cutting the list before a use loses nothing that the cut after the use
    would keep. *)
Lemma take_filter_take id items : ∀ n,
  NoDup items →
  take n (filter (λ c, c ≠ id) (take (S n) items))
  = take n (filter (λ c, c ≠ id) items).
Proof.
  induction items as [|x items IH]; intros n Hnd; [done|].
  apply NoDup_cons in Hnd as [Hx Hnd].
  change (take (S n) (x :: items)) with (x :: take n items).
  destruct (decide (x = id)) as [->|Hne].
  - rewrite !filter_cons_False by (intros H; by apply H).
    rewrite (filter_ne_absent id items) by done.
    rewrite (filter_ne_absent id (take n items)) by (by apply not_elem_of_take).
    rewrite take_take. f_equal. lia.
  - rewrite !filter_cons_True by done.
    destruct n as [|n]; [done|]. simpl. f_equal. by apply IH.
Qed.

Lemma most_recent_first_snoc ids id :
  most_recent_first (ids ++ [id])
  = id :: filter (λ c, c ≠ id) (most_recent_first ids).
Proof. unfold most_recent_first. by rewrite foldl_snoc. Qed.

Lemma most_recent_first_NoDup ids : NoDup (most_recent_first ids).
Proof.
  induction ids as [|id ids IH] using rev_ind; [constructor|].
  rewrite most_recent_first_snoc. apply NoDup_cons. split.
  - apply not_elem_of_filter_ne.
  - by apply NoDup_filter.
Qed.

Lemma run_uses_snoc calls call s :
  run_uses (calls ++ [call]) s = onAction call.1 call.2 (run_uses calls s).
Proof. unfold run_uses. by rewrite foldl_snoc. Qed.

End RecentOrder.

(** X1. A use of an identifier that is already in the recent list moves it
    to the front: the other identifiers keep their order and none is lost. *)
Theorem use_present_moves_to_front (a : Action) (props : Props) (s : State) :
  is_use a → truthy_flag (p_pinned props) = false →
  NoDup (recent s) → (length (recent s) ≤ 4)%nat → p_case props ∈ recent s →
  recent (onAction a props s)
  = p_case props :: filter (λ c, c ≠ p_case props) (recent s)
  ∧ recent (onAction a props s) ≡ₚ recent s.
Proof.
  intros Ha Hp Hnd Hlen Hin.
  rewrite (use_action_unpinned a props s Ha Hp). simpl.
  pose proof (length_filter_present _ _ Hnd Hin) as Hl.
  rewrite take_ge by lia.
  split; [done|]. by apply move_to_front_Permutation.
Qed.

Lemma use_present_moves_to_front_witness :
  let props := {| p_case := js "C"; p_pinned := None; p_recent := Some true |} in
  let s := {| pinned := []; recent := [js "A"; js "B"; js "C"; js "D"] |} in
  is_use CopyToClipboard ∧ truthy_flag (p_pinned props) = false
  ∧ NoDup (recent s) ∧ (length (recent s) ≤ 4)%nat ∧ p_case props ∈ recent s
  ∧ recent (onAction CopyToClipboard props s) = [js "C"; js "A"; js "B"; js "D"].
Proof.
  intros props s.
  assert (Ha : is_use CopyToClipboard) by (by left).
  assert (Hnd : NoDup (recent s)).
  { apply (bool_decide_unpack _). vm_compute. exact I. }
  assert (Hlen : (length (recent s) ≤ 4)%nat) by (simpl; lia).
  assert (Hin : p_case props ∈ recent s).
  { apply (bool_decide_unpack _). vm_compute. exact I. }
  destruct (use_present_moves_to_front CopyToClipboard props s Ha eq_refl Hnd Hlen Hin)
    as [Heq _].
  exact (conj Ha (conj eq_refl (conj Hnd (conj Hlen (conj Hin Heq))))).
Defined.

(** X2. A use of an identifier that is not in the recent list puts it in
    front of the list as it was; when the list is full, exactly the oldest
    identifier (the last one) leaves it. *)
Theorem use_absent_evicts_oldest (a : Action) (props : Props) (s : State)
    (front : list CaseType) (oldest : CaseType) :
  is_use a → truthy_flag (p_pinned props) = false →
  p_case props ∉ recent s → NoDup (recent s) →
  recent s = front ++ [oldest] → length (recent s) = 4%nat →
  recent (onAction a props s) = p_case props :: front
  ∧ oldest ∉ recent (onAction a props s).
Proof.
  intros Ha Hp Hout Hnd Hsplit Hlen.
  rewrite (use_action_unpinned a props s Ha Hp). simpl.
  rewrite (filter_ne_absent _ _ Hout).
  rewrite Hsplit in Hout, Hnd, Hlen |- *.
  rewrite length_app in Hlen. simpl in Hlen.
  rewrite take_app_length' by lia.
  split; [done|].
  apply NoDup_app in Hnd as (_ & Hdisj & _).
  apply not_elem_of_cons. split.
  - intros ->. apply Hout. apply elem_of_app. right. by left.
  - intros Hin. apply (Hdisj _ Hin). by left.
Qed.

Lemma use_absent_evicts_oldest_witness :
  let props := {| p_case := js "E"; p_pinned := None; p_recent := None |} in
  let s := {| pinned := []; recent := [js "A"; js "B"; js "C"; js "D"] |} in
  is_use PasteToActiveApp ∧ truthy_flag (p_pinned props) = false
  ∧ (p_case props ∉ recent s) ∧ NoDup (recent s)
  ∧ recent s = [js "A"; js "B"; js "C"] ++ [js "D"]
  ∧ length (recent s) = 4%nat
  ∧ recent (onAction PasteToActiveApp props s) = [js "E"; js "A"; js "B"; js "C"]
  ∧ (js "D" ∉ recent (onAction PasteToActiveApp props s)).
Proof.
  intros props s.
  assert (Ha : is_use PasteToActiveApp) by (by right).
  assert (Hout : p_case props ∉ recent s).
  { apply (bool_decide_unpack _). vm_compute. exact I. }
  assert (Hnd : NoDup (recent s)).
  { apply (bool_decide_unpack _). vm_compute. exact I. }
  destruct (use_absent_evicts_oldest PasteToActiveApp props s
              [js "A"; js "B"; js "C"] (js "D") Ha eq_refl Hout Hnd eq_refl eq_refl)
    as [Heq Hgone].
  exact (conj Ha (conj eq_refl (conj Hout (conj Hnd
          (conj eq_refl (conj eq_refl (conj Heq Hgone))))))).
Defined.

(** X3. After any sequence of uses of unpinned items from an empty recent
    list, the recent list is the first four identifiers of the
    most-recently-used order of all the identifiers used, and the pinned
    list is as it was. *)
Theorem recent_is_four_most_recent (calls : list (Action * Props)) (s : State) :
  Forall (λ call, is_use call.1 ∧ truthy_flag (p_pinned call.2) = false) calls →
  recent s = [] →
  recent (run_uses calls s)
  = take 4 (most_recent_first ((λ call, p_case call.2) <$> calls))
  ∧ pinned (run_uses calls s) = pinned s.
Proof.
  intros Hall Hempty.
  induction calls as [|[a props] calls IH] using rev_ind.
  { unfold run_uses. simpl. by rewrite Hempty. }
  apply Forall_app in Hall as [Hall Hlast].
  apply Forall_singleton in Hlast as [Ha Hp]. simpl in Ha, Hp.
  destruct (IH Hall) as [IHr IHp].
  rewrite run_uses_snoc. simpl.
  rewrite (use_action_unpinned a props _ Ha Hp). simpl.
  split; [|done].
  rewrite fmap_app. simpl. rewrite most_recent_first_snoc, IHr.
  change (take 4 (p_case props :: ?l)) with (p_case props :: take 3 l).
  simpl. f_equal. apply take_filter_take, most_recent_first_NoDup.
Qed.

Lemma recent_is_four_most_recent_witness :
  let item id := {| p_case := id; p_pinned := None; p_recent := None |} in
  let calls := [(CopyToClipboard, item (js "A")); (PasteToActiveApp, item (js "B"));
                (CopyToClipboard, item (js "C")); (CopyToClipboard, item (js "D"));
                (CopyToClipboard, item (js "B")); (PasteToActiveApp, item (js "E"))] in
  Forall (λ call, is_use call.1 ∧ truthy_flag (p_pinned call.2) = false) calls
  ∧ recent initial = []
  ∧ recent (run_uses calls initial) = [js "E"; js "B"; js "D"; js "C"]
  ∧ most_recent_first ((λ call, p_case call.2) <$> calls)
    = [js "E"; js "B"; js "D"; js "C"; js "A"].
Proof.
  intros item calls.
  assert (Hall : Forall (λ call, is_use call.1 ∧ truthy_flag (p_pinned call.2) = false) calls).
  { repeat constructor; by (left + right). }
  destruct (recent_is_four_most_recent calls initial Hall eq_refl) as [Heq _].
  exact (conj Hall (conj eq_refl (conj Heq eq_refl))).
Defined.

(** ** Removing, pinning and unpinning *)

Section Removal.

Implicit Types (id : CaseType) (items : list CaseType).

(** What [items.filter((c) => c !== id)] keeps. *)
Lemma filter_ne_keeps id items :
  (id ∉ filter (λ c, c ≠ id) items)
  ∧ (∀ x, x ≠ id → x ∈ filter (λ c, c ≠ id) items ↔ x ∈ items)
  ∧ filter (λ c, c ≠ id) items `sublist_of` items.
Proof.
  split; [apply not_elem_of_filter_ne|]. split.
  - intros x Hx. rewrite list_elem_of_filter. tauto.
  - apply sublist_filter.
Qed.

End Removal.

(** X4. Remove Pinned Case takes the identifier of its item out of the
    pinned list and nothing else: the other identifiers keep their places,
    the recent list is untouched, a duplicate-free list gets one shorter,
    and a list without the identifier is left as it is. *)
Theorem remove_pinned_case (props : Props) (s : State) :
  NoDup (pinned s) →
  (p_case props ∉ pinned (onAction RemovePinnedCase props s))
  ∧ (∀ x, x ≠ p_case props →
       x ∈ pinned (onAction RemovePinnedCase props s) ↔ x ∈ pinned s)
  ∧ pinned (onAction RemovePinnedCase props s) `sublist_of` pinned s
  ∧ recent (onAction RemovePinnedCase props s) = recent s
  ∧ (p_case props ∈ pinned s →
       S (length (pinned (onAction RemovePinnedCase props s))) = length (pinned s))
  ∧ (p_case props ∉ pinned s → onAction RemovePinnedCase props s = s).
Proof.
  intros Hnd. simpl.
  destruct (filter_ne_keeps (p_case props) (pinned s)) as (H1 & H2 & H3).
  split; [done|]. split; [done|]. split; [done|]. split; [done|]. split.
  - intros Hin. by apply length_filter_present.
  - intros Hout. unfold RemovePinnedCase_onAction.
    rewrite (filter_ne_absent _ _ Hout). by destruct s.
Qed.

Lemma remove_pinned_case_witness :
  let props := {| p_case := js "B"; p_pinned := Some true; p_recent := None |} in
  let s := {| pinned := [js "A"; js "B"; js "C"]; recent := [js "D"] |} in
  NoDup (pinned s)
  ∧ onAction RemovePinnedCase props s
    = {| pinned := [js "A"; js "C"]; recent := [js "D"] |}
  ∧ (p_case props ∉ pinned (onAction RemovePinnedCase props s)).
Proof.
  intros props s.
  assert (Hnd : NoDup (pinned s)).
  { apply (bool_decide_unpack _). vm_compute. exact I. }
  destruct (remove_pinned_case props s Hnd) as (Hout & _).
  exact (conj Hnd (conj eq_refl Hout)).
Defined.

(** X5. Remove Recent Case takes the identifier of its item out of the
    recent list and nothing else: the other identifiers keep their places,
    the pinned list is untouched, a duplicate-free list gets one shorter,
    and a list without the identifier is left as it is. *)
Theorem remove_recent_case (props : Props) (s : State) :
  NoDup (recent s) →
  (p_case props ∉ recent (onAction RemoveRecentCase props s))
  ∧ (∀ x, x ≠ p_case props →
       x ∈ recent (onAction RemoveRecentCase props s) ↔ x ∈ recent s)
  ∧ recent (onAction RemoveRecentCase props s) `sublist_of` recent s
  ∧ pinned (onAction RemoveRecentCase props s) = pinned s
  ∧ (p_case props ∈ recent s →
       S (length (recent (onAction RemoveRecentCase props s))) = length (recent s))
  ∧ (p_case props ∉ recent s → onAction RemoveRecentCase props s = s).
Proof.
  intros Hnd. simpl.
  destruct (filter_ne_keeps (p_case props) (recent s)) as (H1 & H2 & H3).
  split; [done|]. split; [done|]. split; [done|]. split; [done|]. split.
  - intros Hin. by apply length_filter_present.
  - intros Hout. unfold RemoveRecentCase_onAction.
    rewrite (filter_ne_absent _ _ Hout). by destruct s.
Qed.

Lemma remove_recent_case_witness :
  let props := {| p_case := js "D"; p_pinned := None; p_recent := Some true |} in
  let s := {| pinned := [js "A"]; recent := [js "B"; js "C"; js "D"] |} in
  NoDup (recent s)
  ∧ onAction RemoveRecentCase props s
    = {| pinned := [js "A"]; recent := [js "B"; js "C"] |}
  ∧ (p_case props ∉ recent (onAction RemoveRecentCase props s)).
Proof.
  intros props s.
  assert (Hnd : NoDup (recent s)).
  { apply (bool_decide_unpack _). vm_compute. exact I. }
  destruct (remove_recent_case props s Hnd) as (Hout & _).
  exact (conj Hnd (conj eq_refl Hout)).
Defined.

Section Panel.

Context `{env : Env}.

(** The two actions on the pinned list are in the panel of an item shown as
    pinned. *)
Lemma RemovePinnedCase_offered props :
  truthy_flag (p_pinned props) = true →
  RemovePinnedCase ∈ CaseItem_actions props.
Proof.
  intros Hflag. unfold CaseItem_actions. rewrite Hflag. simpl.
  apply elem_of_app. right. apply elem_of_cons. right.
  apply elem_of_app. right. by left.
Qed.

(** The identifiers shown, section after section. *)
Lemma rendered_cases_sections (s : State) :
  rendered_cases s
  = pinned s ++ recent s
    ++ filter (λ key, preferences_truthy (remove_spaces key) = true
                      ∧ includes (recent s) key = false
                      ∧ includes (pinned s) key = false) functions.
Proof.
  unfold rendered_cases, render. rewrite !fmap_app, <- !list_fmap_compose.
  by rewrite !list_fmap_id.
Qed.

Lemma render_known s props : known s → props ∈ render s → p_case props ∈ functions.
Proof.
  intros Hknown. rewrite elem_of_render.
  intros [[_ Hin] | [[_ Hin] | [_ (_ & _ & _ & Hin)]]]; [| |done];
    apply Hknown; (by left) || (by right).
Qed.

Lemma action_known s props a :
  known s → props ∈ render s → known (onAction a props s).
Proof.
  intros Hknown Hprops id.
  pose proof (render_known s props Hknown Hprops) as Hcase.
  assert (Hp : id ∈ pinned s → id ∈ functions) by (intros; apply Hknown; by left).
  assert (Hr : id ∈ recent s → id ∈ functions) by (intros; apply Hknown; by right).
  assert (Hf : id ∈ filter (λ c, c ≠ p_case props) (recent s) → id ∈ functions).
  { intros [_ H]%list_elem_of_filter. by apply Hr. }
  assert (Hf' : id ∈ filter (λ c, c ≠ p_case props) (pinned s) → id ∈ functions).
  { intros [_ H]%list_elem_of_filter. by apply Hp. }
  assert (Hu : id ∈ take 4 (p_case props :: filter (λ c, c ≠ p_case props) (recent s))
               → id ∈ functions).
  { intros [-> | H]%use_recent_elem; [done | by apply Hr]. }
  destruct a; simpl;
    unfold CopyToClipboard_onAction, PasteToActiveApp_onAction, PinCase_onAction;
    try destruct (truthy_flag (p_pinned props));
    try destruct (truthy_flag (p_recent props));
    cbn [pinned recent RemovePinnedCase_onAction ClearPinnedCases_onAction
         RemoveRecentCase_onAction ClearRecentCases_onAction];
    try (intros [H | H]; by auto);
    try (intros [[-> | H]%elem_of_cons | H]; by auto);
    try (intros [H | H]; auto; by apply elem_of_nil in H).
Qed.

Lemma reachable_known s : reachable s → known s.
Proof.
  unfold reachable. revert s. apply rtc_ind_r.
  - intros id [H | H]; by apply elem_of_nil in H.
  - intros s s' _ [props a Hprops Ha | cache p r Hp Hr] Hknown.
    + by apply action_known.
    + by rewrite (launch_same_state s cache p r Hp Hr).
Qed.

End Panel.

(** X6. In a session that started with empty lists, pinning a rendered item
    and then removing the pin from the item, now shown as pinned, gives back
    the pinned list as it was; the recent list is the one before the pin
    without the identifier, which is not put back. *)
Theorem pin_then_unpin `{env : Env} (s : State) (props : Props) :
  reachable s → props ∈ render s → PinCase ∈ CaseItem_actions props →
  let shown := {| p_case := p_case props; p_pinned := Some true; p_recent := None |} in
  shown ∈ render (onAction PinCase props s)
  ∧ RemovePinnedCase ∈ CaseItem_actions shown
  ∧ pinned (onAction RemovePinnedCase shown (onAction PinCase props s)) = pinned s
  ∧ recent (onAction RemovePinnedCase shown (onAction PinCase props s))
    = filter (λ c, c ≠ p_case props) (recent s).
Proof.
  intros Hreach Hprops Ha shown.
  destruct (reachable_invariant s Hreach) as (_ & _ & _ & Hex).
  apply PinCase_offered in Ha.
  destruct (render_not_shown_pinned s props Hex Hprops Ha) as [Hnp Hrecent].
  split.
  { apply elem_of_render. left. split; [done|]. simpl. by left. }
  split; [by apply RemovePinnedCase_offered|].
  simpl. rewrite filter_cons_False by (intros H; by apply H).
  split; [by apply filter_ne_absent|].
  destruct (truthy_flag (p_recent props)); [done|].
  symmetry. by apply filter_ne_absent.
Qed.

Lemma pin_then_unpin_witness :
  let props := {| p_case := js "camelCase"; p_pinned := None; p_recent := None |} in
  let shown := {| p_case := js "camelCase"; p_pinned := Some true; p_recent := None |} in
  @reachable example_env initial
  ∧ props ∈ @render example_env initial
  ∧ PinCase ∈ @CaseItem_actions example_env props
  ∧ shown ∈ @render example_env (onAction PinCase props initial)
  ∧ onAction RemovePinnedCase shown (onAction PinCase props initial) = initial.
Proof.
  intros props shown.
  assert (Hreach : @reachable example_env initial) by apply rtc_refl.
  assert (Hprops : props ∈ @render example_env initial).
  { apply (bool_decide_unpack _). vm_compute. exact I. }
  assert (Ha : PinCase ∈ @CaseItem_actions example_env props).
  { apply (bool_decide_unpack _). vm_compute. exact I. }
  destruct (@pin_then_unpin example_env initial props Hreach Hprops Ha)
    as (Hshown & _).
  exact (conj Hreach (conj Hprops (conj Ha (conj Hshown eq_refl)))).
Defined.

(** X7. In every state of a session that started with empty lists, whatever
    actions of rendered items and relaunches led to it, the pinned list and
    the recent list have no duplicate, the recent list has at most four
    identifiers, no identifier is in both lists, and every identifier of
    either list is a key of the registry. *)
Theorem session_invariant `{env : Env} (s : State) :
  reachable s →
  NoDup (pinned s) ∧ NoDup (recent s) ∧ (length (recent s) ≤ 4)%nat
  ∧ (∀ id, id ∈ pinned s → id ∉ recent s)
  ∧ (∀ id, id ∈ pinned s ∨ id ∈ recent s → id ∈ functions).
Proof.
  intros Hreach.
  destruct (reachable_invariant s Hreach) as (Hp & Hr & Hlen & Hex).
  pose proof (reachable_known s Hreach) as Hknown.
  done.
Qed.

Lemma session_invariant_witness :
  let s := {| pinned := [js "snake_case"]; recent := [js "camelCase"] |} in
  @reachable example_env s
  ∧ NoDup (pinned s) ∧ (∀ id, id ∈ pinned s → id ∉ recent s).
Proof.
  intros s.
  assert (Hreach : @reachable example_env s).
  { apply (rtc_l _ _ (onAction PinCase
             {| p_case := js "snake_case"; p_pinned := None; p_recent := None |}
             initial)).
    - apply step_action; apply (bool_decide_unpack _); vm_compute; exact I.
    - apply rtc_once.
      change s with
        (onAction CopyToClipboard
           {| p_case := js "camelCase"; p_pinned := None; p_recent := None |}
           (onAction PinCase
              {| p_case := js "snake_case"; p_pinned := None; p_recent := None |}
              initial)).
      apply step_action; apply (bool_decide_unpack _); vm_compute; exact I. }
  destruct (@session_invariant example_env s Hreach) as (Hp & _ & _ & Hex & _).
  exact (conj Hreach (conj Hp Hex)).
Defined.



(** X9. In a session that started with empty lists, when the keys of the
    registry are distinct, no identifier is shown twice: the items of the
    list have distinct identifiers (their React keys). *)
Theorem rendered_cases_distinct `{env : Env} (s : State) :
  reachable s → NoDup functions → NoDup (rendered_cases s).
Proof.
  intros Hreach Hfun.
  destruct (reachable_invariant s Hreach) as (Hp & Hr & _ & Hex).
  rewrite rendered_cases_sections.
  apply NoDup_app. split; [done|]. split.
  - intros id Hin. rewrite elem_of_app, list_elem_of_filter.
    unfold includes. rewrite !bool_decide_eq_false.
    intros [Hrecent | [(_ & _ & Hout) _]]; [by apply (Hex id)|done].
  - apply NoDup_app. split; [done|]. split; [|by apply NoDup_filter].
    intros id Hin. rewrite list_elem_of_filter.
    unfold includes. rewrite !bool_decide_eq_false.
    intros [(_ & Hout & _) _]. done.
Qed.

Lemma rendered_cases_distinct_witness :
  let s := {| pinned := [js "snake_case"]; recent := [] |} in
  @reachable example_env s
  ∧ NoDup (@functions example_env)
  ∧ @rendered_cases example_env s = [js "snake_case"; js "camelCase"; js "Title Case"]
  ∧ NoDup (@rendered_cases example_env s).
Proof.
  intros s.
  assert (Hreach : @reachable example_env s).
  { apply rtc_once.
    change s with
      (onAction PinCase
         {| p_case := js "snake_case"; p_pinned := None; p_recent := None |}
         initial).
    apply step_action; apply (bool_decide_unpack _); vm_compute; exact I. }
  assert (Hfun : NoDup (@functions example_env)).
  { apply (bool_decide_unpack _). vm_compute. exact I. }
  pose proof (@rendered_cases_distinct example_env s Hreach Hfun) as Hnd.
  exact (conj Hreach (conj Hfun (conj eq_refl Hnd))).
Defined.

(** ** More on the line-by-line conversion *)

Section MoreLines.

Implicit Types (input text : jsstring) (lines : list jsstring) (f g : CaseFunction).

Lemma join_split_lines input : join_lines (split_lines input) = input.
Proof.
  induction input as [|c rest IH]; [done|]. simpl.
  pose proof (split_lines_nonempty rest) as Hne.
  destruct (decide (c = LF)) as [->|Hc].
  - destruct (split_lines rest) as [|line lines] eqn:Hs; [done|].
    change (join_lines ([] :: line :: lines)) with (LF :: join_lines (line :: lines)).
    by rewrite IH.
  - destruct (split_lines rest) as [|line lines] eqn:Hs; [done|].
    rewrite <- IH. by destruct lines.
Qed.

Lemma split_lines_app input text :
  split_lines (input ++ LF :: text) = split_lines input ++ split_lines text.
Proof.
  induction input as [|c rest IH]; simpl.
  - by destruct (decide (LF = LF)).
  - rewrite IH. pose proof (split_lines_nonempty rest) as Hne.
    destruct (decide (c = LF)); [done|].
    by destruct (split_lines rest).
Qed.

Lemma join_lines_app lines lines' :
  lines ≠ [] → lines' ≠ [] →
  join_lines (lines ++ lines') = join_lines lines ++ LF :: join_lines lines'.
Proof.
  intros Hne Hne'. induction lines as [|line [|line' more] IH]; [done| |].
  - destruct lines'; done.
  - change (join_lines ((line :: line' :: more) ++ lines'))
      with (line ++ LF :: join_lines ((line' :: more) ++ lines')).
    rewrite IH by done.
    change (join_lines (line :: line' :: more))
      with (line ++ LF :: join_lines (line' :: more)).
    by rewrite <- app_assoc.
Qed.

End MoreLines.

(** X10. Converting with the identity function gives the text back: splitting
    on line feeds and joining with line feeds loses nothing (empty lines and
    a final line feed included). *)
Theorem modifyCasesWrapper_identity (input : jsstring) :
  modifyCasesWrapper input (λ line, line) = input
  ∧ join_lines (split_lines input) = input.
Proof.
  split; [|apply join_split_lines].
  rewrite modifyCasesWrapper_spec. unfold spec_transform.
  rewrite list_fmap_id. apply join_split_lines.
Qed.

(** X11. The conversion of two texts joined by a line feed is the conversion
    of the first, a line feed, and the conversion of the second: no line
    influences another. *)
Theorem modifyCasesWrapper_line_feed (input text : jsstring) (f : CaseFunction) :
  modifyCasesWrapper (input ++ LF :: text) f
  = modifyCasesWrapper input f ++ LF :: modifyCasesWrapper text f.
Proof.
  rewrite !modifyCasesWrapper_spec. unfold spec_transform.
  rewrite split_lines_app, fmap_app.
  apply join_lines_app.
  - pose proof (split_lines_nonempty input). by destruct (split_lines input).
  - pose proof (split_lines_nonempty text). by destruct (split_lines text).
Qed.

Lemma modifyCasesWrapper_single_line_eq (input : jsstring) (f : CaseFunction) :
  LF ∉ input → modifyCasesWrapper input f = f input.
Proof.
  intros Hline. rewrite modifyCasesWrapper_spec. unfold spec_transform.
  by rewrite split_lines_no_LF.
Qed.

(** X12. A text without a line feed (the empty text included) is converted
    by one call of the case function on the whole text. *)
Theorem modifyCasesWrapper_single_line (input : jsstring) (f : CaseFunction) :
  LF ∉ input →
  modifyCasesWrapper input f = f input ∧ line_count input = 1%nat.
Proof.
  intros Hline. split; [by apply modifyCasesWrapper_single_line_eq|].
  unfold line_count. by rewrite split_lines_no_LF.
Qed.

Lemma modifyCasesWrapper_single_line_witness :
  (LF ∉ js "hello world")
  ∧ modifyCasesWrapper (js "hello world") (λ line, line ++ line)
    = js "hello worldhello world".
Proof.
  assert (Hline : LF ∉ js "hello world").
  { apply (bool_decide_unpack _). vm_compute. exact I. }
  exact (conj Hline
           (proj1 (modifyCasesWrapper_single_line (js "hello world")
                     (λ line, line ++ line) Hline))).
Defined.

(** X13. Converting with one function and then with another is converting
    with their composition, when the first function puts no line feed in
    the lines it returns. *)
Theorem modifyCasesWrapper_compose (input : jsstring) (f g : CaseFunction) :
  Forall (λ line, LF ∉ f line) (split_lines input) →
  modifyCasesWrapper (modifyCasesWrapper input f) g
  = modifyCasesWrapper input (g ∘ f).
Proof.
  intros Hf. rewrite !modifyCasesWrapper_spec. unfold spec_transform.
  rewrite split_lines_join.
  - by rewrite <- list_fmap_compose.
  - pose proof (split_lines_nonempty input). by destruct (split_lines input).
  - by apply Forall_fmap.
Qed.

Lemma modifyCasesWrapper_compose_witness :
  let upper : CaseFunction :=
    fmap (λ c, if (97 <=? c) && (c <=? 122) then c - 32 else c) in
  let twice : CaseFunction := λ line, line ++ line in
  let input := [97; LF; 98] in
  Forall (λ line, LF ∉ upper line) (split_lines input)
  ∧ modifyCasesWrapper (modifyCasesWrapper input upper) twice = [65; 65; LF; 66; 66].
Proof.
  intros upper twice input.
  assert (Hf : Forall (λ line, LF ∉ upper line) (split_lines input)).
  { apply (bool_decide_unpack _). vm_compute. exact I. }
  pose proof (modifyCasesWrapper_compose input upper twice Hf) as H.
  exact (conj Hf (eq_trans H eq_refl)).
Defined.

(** ** More on reading the text *)

(** X14. The preferred source matters only when both the clipboard and the
    selection yield text: then [readContent] returns the clipboard's text if
    the preference is ["clipboard"] and the selection's text for any other
    preference value; when at most one of them yields text the result is the
    same for every preference. *)
Theorem readContent_preference (h : Host) (preferredSource other : jsstring) :
  (clipboard_yields_text h && selection_yields_text h = false →
   readContent h preferredSource = readContent h other)
  ∧ (∀ clip sel,
       Clipboard_readText h = Some clip → getSelectedText h = Ok sel →
       clip ≠ [] → sel ≠ [] →
       readContent h preferredSource
       = Ok (if decide (preferredSource = js "clipboard") then clip else sel)).
Proof.
  destruct h as [clipboard selected].
  unfold readContent, clipboard_yields_text, selection_yields_text, getSelection.
  simpl. split.
  - destruct clipboard as [[|c cs]|], selected as [[|t ts]|e];
      destruct (decide (preferredSource = js "clipboard")),
        (decide (other = js "clipboard")); simpl; intros H;
      reflexivity || discriminate H.
  - intros clip sel -> -> Hclip Hsel.
    destruct clip, sel; try done.
    by destruct (decide (preferredSource = js "clipboard")).
Qed.

Lemma readContent_preference_witness :
  let h := {| Clipboard_readText := Some (js "copied");
              getSelectedText := Ok (js "selected") |} in
  let only := {| Clipboard_readText := None;
                 getSelectedText := Ok (js "selected") |} in
  clipboard_yields_text only && selection_yields_text only = false
  ∧ readContent only (js "clipboard") = readContent only (js "selection")
  ∧ readContent h (js "clipboard") = Ok (js "copied")
  ∧ readContent h (js "selection") = Ok (js "selected").
Proof.
  intros h only.
  destruct (readContent_preference only (js "clipboard") (js "selection")) as [H0 _].
  destruct (readContent_preference h (js "clipboard") (js "selection")) as [_ H1].
  destruct (readContent_preference h (js "selection") (js "clipboard")) as [_ H2].
  exact (conj eq_refl (conj (H0 eq_refl)
          (conj (H1 _ _ eq_refl eq_refl ltac:(discriminate) ltac:(discriminate))
                (H2 _ _ eq_refl eq_refl ltac:(discriminate) ltac:(discriminate))))).
Defined.

(** ** Launching with a case *)



Lemma readContent_no_text (h : Host) (preferredSource : jsstring) :
  clipboard_yields_text h = false → selection_yields_text h = false →
  readContent h preferredSource = Throw NoTextError.
Proof.
  destruct h as [clipboard selected].
  unfold readContent, clipboard_yields_text, selection_yields_text, getSelection.
  simpl. intros Hc Hs.
  destruct clipboard as [[|c cs]|], selected as [[|t ts]|e];
    try discriminate Hc; try discriminate Hs;
    by destruct (decide (preferredSource = js "clipboard")).
Qed.

Lemma readContent_text (h : Host) (preferredSource : jsstring) :
  clipboard_yields_text h = true ∨ selection_yields_text h = true →
  ∃ text, readContent h preferredSource = Ok text ∧ text ≠ [].
Proof.
  destruct h as [clipboard selected].
  unfold readContent, clipboard_yields_text, selection_yields_text, getSelection.
  simpl. intros Hy.
  destruct clipboard as [[|c cs]|], selected as [[|t ts]|e];
    destruct (decide (preferredSource = js "clipboard")); simpl in *;
    try (destruct Hy as [Hy|Hy]; discriminate Hy);
    eexists; split; reflexivity || discriminate.
Qed.

(** X16. With nothing to convert (neither the clipboard nor the selection
    yields text) the list shows the failure toast and keeps the empty text,
    and an immediate conversion copies nothing and shows no HUD, whether or
    not the case is a key of the registry. The toast is shown in no other
    situation. *)
Theorem nothing_to_convert (functions_at : CaseType → option CaseFunction)
    (h : Host) (preferredSource case_name : jsstring) :
  case_name ≠ [] →
  (snd (read_effect h preferredSource) = true
   ↔ clipboard_yields_text h = false ∧ selection_yields_text h = false)
  ∧ (clipboard_yields_text h = false → selection_yields_text h = false →
     read_effect h preferredSource = ([], true)
     ∧ Command_launch functions_at h preferredSource (Some case_name)
       = Immediate (ReadRejected NoTextError)).
Proof.
  intros Hname. split.
  - unfold read_effect. split.
    + intros Htoast.
      destruct (clipboard_yields_text h) eqn:Hc;
        [|destruct (selection_yields_text h) eqn:Hs; [|done]].
      * destruct (readContent_text h preferredSource (or_introl Hc)) as (t & Ht & _).
        rewrite Ht in Htoast. discriminate Htoast.
      * destruct (readContent_text h preferredSource (or_intror Hs)) as (t & Ht & _).
        rewrite Ht in Htoast. discriminate Htoast.
    + intros [Hc Hs]. by rewrite (readContent_no_text h preferredSource Hc Hs).
  - intros Hc Hs. unfold read_effect, Command_launch.
    rewrite (readContent_no_text h preferredSource Hc Hs).
    by destruct case_name.
Qed.

Lemma nothing_to_convert_witness :
  let h := {| Clipboard_readText := Some []; getSelectedText := Throw HostError |} in
  js "camelCase" ≠ []
  ∧ read_effect h (js "clipboard") = ([], true)
  ∧ Command_launch (λ _, None) h (js "clipboard") (Some (js "camelCase"))
    = Immediate (ReadRejected NoTextError).
Proof.
  intros h.
  assert (Hname : js "camelCase" ≠ []) by discriminate.
  destruct (nothing_to_convert (λ _, None) h (js "clipboard") (js "camelCase") Hname)
    as [_ H].
  destruct (H eq_refl eq_refl) as [H1 H2].
  exact (conj Hname (conj H1 H2)).
Defined.

(** ** More on the stored lists *)

(** X17. Writing the two lists through changes the cache under ["pinned"]
    and ["recent"] only; what is then read back is the two lists, whatever
    the cache held before; and writing a state over another leaves no trace
    of the first. *)
Theorem persist_load (s s' : State) (cache : Cache) :
  getPinnedCases (persist s cache) = Ok (json_of_cases (pinned s))
  ∧ getRecentCases (persist s cache) = Ok (json_of_cases (recent s))
  ∧ (∀ key, key ≠ "pinned"%string → key ≠ "recent"%string →
       persist s cache !! key = cache !! key)
  ∧ persist s' (persist s cache) = persist s' cache.
Proof.
  destruct (load_persist s cache) as [Hp Hr].
  split; [done|]. split; [done|]. split.
  - intros key Hkp Hkr. unfold persist, setRecentCases, setPinnedCases.
    by rewrite !lookup_insert_ne.
  - unfold persist, setRecentCases, setPinnedCases.
    apply map_eq. intros key.
    destruct (decide (key = "recent"%string)) as [->|Hkr].
    { by rewrite !lookup_insert_eq. }
    destruct (decide (key = "pinned"%string)) as [->|Hkp].
    { rewrite !(lookup_insert_ne _ "recent"%string) by done.
      by rewrite !lookup_insert_eq. }
    by repeat (rewrite lookup_insert_ne by done).
Qed.

(** X18. [getRecentCases] answers the empty list when the cache has nothing
    under ["recent"] or the empty string; it throws only a syntax error, and
    exactly when the stored string is not empty and [JSON.parse] rejects it;
    the same holds for [getPinnedCases] and ["pinned"]. *)
Theorem getters_throw_iff (cache : Cache) (e : exn) :
  (cache !! "recent"%string = None ∨ cache !! "recent"%string = Some [] →
   getRecentCases cache = Ok (json_of_cases []))
  ∧ (cache !! "pinned"%string = None ∨ cache !! "pinned"%string = Some [] →
     getPinnedCases cache = Ok (json_of_cases []))
  ∧ (getRecentCases cache = Throw e
     ↔ e = SyntaxError
       ∧ ∃ stored, cache !! "recent"%string = Some stored ∧ stored ≠ []
                   ∧ JSON_parse stored = Throw SyntaxError)
  ∧ (getPinnedCases cache = Throw e
     ↔ e = SyntaxError
       ∧ ∃ stored, cache !! "pinned"%string = Some stored ∧ stored ≠ []
                   ∧ JSON_parse stored = Throw SyntaxError).
Proof.
  unfold getRecentCases, getPinnedCases.
  split; [intros [-> | ->]; reflexivity|].
  split; [intros [-> | ->]; reflexivity|].
  split.
  - destruct (cache !! "recent"%string) as [[|c stored]|]; simpl.
    + split; [discriminate|]. intros (_ & stored & H & Hne & _). congruence.
    + split.
      * intros H. pose proof (JSON_parse_exn _ _ H) as ->.
        split; [done|]. by exists (c :: stored).
      * intros (-> & stored' & H & _ & Hthrow). by injection H as <-.
    + split; [discriminate|]. intros (_ & stored & H & _). discriminate H.
  - destruct (cache !! "pinned"%string) as [[|c stored]|]; simpl.
    + split; [discriminate|]. intros (_ & stored & H & Hne & _). congruence.
    + split.
      * intros H. pose proof (JSON_parse_exn _ _ H) as ->.
        split; [done|]. by exists (c :: stored).
      * intros (-> & stored' & H & _ & Hthrow). by injection H as <-.
    + split; [discriminate|]. intros (_ & stored & H & _). discriminate H.
Qed.

Lemma getters_throw_iff_witness :
  let cache : Cache := {[ "recent"%string := jsq "['camelCase',]" ]} in
  getRecentCases cache = Throw SyntaxError
  ∧ getPinnedCases cache = Ok (json_of_cases [])
  ∧ ∃ stored, cache !! "recent"%string = Some stored ∧ stored ≠ []
              ∧ JSON_parse stored = Throw SyntaxError.
Proof.
  intros cache.
  destruct (getters_throw_iff cache SyntaxError) as (_ & Hp & Hr & _).
  assert (Hthrow : getRecentCases cache = Throw SyntaxError).
  { unfold getRecentCases, cache. rewrite lookup_singleton_eq. reflexivity. }
  assert (Hnone : cache !! "pinned"%string = None).
  { apply lookup_singleton_ne. discriminate. }
  exact (conj Hthrow (conj (Hp (or_introl Hnone)) (proj2 (proj1 Hr Hthrow)))).
Defined.

(** X19. Two different lists of identifiers are never stored as the same
    string. *)
Theorem JSON_stringify_inj (items items' : list CaseType) :
  items ≠ items' → JSON_stringify items ≠ JSON_stringify items'.
Proof.
  intros Hne Heq. apply Hne, json_of_cases_inj.
  assert (H : JSON_parse (JSON_stringify items) = JSON_parse (JSON_stringify items'))
    by (by rewrite Heq).
  rewrite !JSON_parse_stringify in H. congruence.
Qed.

Lemma JSON_stringify_inj_witness :
  [js "a,b"] ≠ [js "a"; js "b"]
  ∧ JSON_stringify [js "a,b"] = jsq "['a,b']"
  ∧ JSON_stringify [js "a"; js "b"] = jsq "['a','b']"
  ∧ JSON_stringify [js "a,b"] ≠ JSON_stringify [js "a"; js "b"].
Proof.
  assert (Hne : [js "a,b"] ≠ [js "a"; js "b"]) by discriminate.
  exact (conj Hne (conj eq_refl (conj eq_refl
          (JSON_stringify_inj [js "a,b"] [js "a"; js "b"] Hne)))).
Defined.

(** ** The quicklink of an item *)

Section Quicklink.

Implicit Types (c : N) (s rest : jsstring).

Lemma parse_chars_plain s rest :
  Forall plain_char s → parse_chars (s ++ QUOTE :: rest) = Some (s, rest).
Proof.
  induction 1 as [|c s (Hc & Hq & Hb) Hs IH]; [reflexivity|].
  simpl. rewrite IH.
  destruct (N.eqb_spec c QUOTE); [done|].
  destruct (N.eqb_spec c BACKSLASH); [done|].
  destruct (N.ltb_spec c SPACE); [lia|]. done.
Qed.

End Quicklink.

(** X20. For an identifier made of characters that JSON lets stand for
    themselves (no double quote, no backslash, no control character), the
    context of the quicklink is a JSON text that parses to the object whose
    only member is ["case"] with the identifier as its value. *)
Theorem quicklink_context_parses (case_name : CaseType) :
  Forall plain_char case_name →
  JSON_parse (quicklink_context case_name)
  = Ok (JObj [(js "case", JStr case_name)]).
Proof.
  intros Hplain. unfold JSON_parse, quicklink_context.
  change (jsq "{'case':'") with [LBRACE; QUOTE; 99; 97; 115; 101; QUOTE; COLON; QUOTE].
  change (jsq "'}") with [QUOTE; RBRACE].
  assert (Hfuel : ∃ n, parse_fuel ([LBRACE; QUOTE; 99; 97; 115; 101; QUOTE; COLON; QUOTE]
                          ++ case_name ++ [QUOTE; RBRACE]) = S (S (S n))).
  { unfold parse_fuel. rewrite length_app. simpl. eexists. reflexivity. }
  destruct Hfuel as [n ->].
  simpl. rewrite (parse_chars_plain case_name [RBRACE] Hplain). reflexivity.
Qed.

Lemma quicklink_context_parses_witness :
  Forall plain_char (js "Title Case")
  ∧ quicklink_context (js "Title Case") = jsq "{'case':'Title Case'}"
  ∧ JSON_parse (quicklink_context (js "Title Case"))
    = Ok (JObj [(js "case", JStr (js "Title Case"))]).
Proof.
  assert (Hplain : Forall plain_char (js "Title Case")).
  { repeat constructor; try lia; discriminate. }
  exact (conj Hplain (conj eq_refl (quicklink_context_parses (js "Title Case") Hplain))).
Defined.

Section Encode.

Implicit Types (c d cp : N) (s rest out : jsstring).

Lemma hex_upper_unreserved d : d < 16 → is_unreserved (hex_upper d) = true.
Proof.
  intros Hd. destruct d as [|p]; [reflexivity|].
  do 4 (destruct p as [p|p|]; try reflexivity); lia.
Qed.

Lemma percent_safe c :
  c < 256 → Forall (λ u, is_unreserved u = true ∨ u = 37) (percent c).
Proof.
  intros Hc. unfold percent.
  apply Forall_cons. split; [by right|].
  apply Forall_cons. split.
  { left. apply hex_upper_unreserved. apply N.Div0.div_lt_upper_bound. lia. }
  apply Forall_cons. split; [|constructor].
  left. apply hex_upper_unreserved. apply N.mod_lt. lia.
Qed.

Lemma utf8_octets cp : cp < 0x110000 → Forall (λ o, o < 256) (utf8 cp).
Proof.
  intros Hcp. unfold utf8.
  destruct (N.ltb_spec cp 0x80); [repeat constructor; lia|].
  destruct (N.ltb_spec cp 0x800).
  { assert (cp / 64 < 32) by (apply N.Div0.div_lt_upper_bound; lia).
    pose proof (N.mod_lt cp 64). repeat constructor; lia. }
  destruct (N.ltb_spec cp 0x10000).
  { assert (cp / 4096 < 16) by (apply N.Div0.div_lt_upper_bound; lia).
    pose proof (N.mod_lt cp 64). pose proof (N.mod_lt (cp / 64) 64).
    repeat constructor; lia. }
  assert (cp / 262144 < 16) by (apply N.Div0.div_lt_upper_bound; lia).
  pose proof (N.mod_lt cp 64). pose proof (N.mod_lt (cp / 64) 64).
  pose proof (N.mod_lt (cp / 4096) 64).
  repeat constructor; lia.
Qed.

Lemma escape_code_point_safe cp :
  cp < 0x110000 →
  Forall (λ u, is_unreserved u = true ∨ u = 37) (escape_code_point cp).
Proof.
  intros Hcp. unfold escape_code_point.
  pose proof (utf8_octets cp Hcp) as Hoct.
  induction Hoct as [|o octets Ho _ IH]; [constructor|].
  change (Forall (λ u, is_unreserved u = true ∨ u = 37)
            (percent o ++ mjoin (percent <$> octets))).
  apply Forall_app. split; [by apply percent_safe | exact IH].
Qed.

Lemma pair_code_point_bound c d :
  is_leading_surrogate c = true → is_trailing_surrogate d = true →
  pair_code_point c d < 0x110000.
Proof.
  unfold is_leading_surrogate, is_trailing_surrogate, pair_code_point.
  intros [Hc1%N.leb_le Hc2%N.leb_le]%andb_true_iff
         [Hd1%N.leb_le Hd2%N.leb_le]%andb_true_iff.
  lia.
Qed.

(** One step of [encodeURIComponent], by the kind of the first code unit. *)
Lemma encodeURIComponent_cons c rest :
  encodeURIComponent (c :: rest) =
    if is_unreserved c then (c ::.) <$> encodeURIComponent rest
    else if is_leading_surrogate c then
      match rest with
      | d :: rest' =>
          if is_trailing_surrogate d
          then (escape_code_point (pair_code_point c d) ++.)
                 <$> encodeURIComponent rest'
          else None
      | [] => None
      end
    else if is_trailing_surrogate c then None
    else (escape_code_point c ++.) <$> encodeURIComponent rest.
Proof. reflexivity. Qed.

Lemma encodeURIComponent_safe_aux s : ∀ out,
  Forall (λ c, c < 65536) s → encodeURIComponent s = Some out →
  Forall (λ u, is_unreserved u = true ∨ u = 37) out.
Proof.
  induction s as [s IH] using (induction_ltof1 _ (@length N)).
  unfold ltof in IH. intros out Hs Henc.
  destruct s as [|c rest]; [injection Henc as <-; constructor|].
  apply Forall_cons in Hs as [Hc Hrest].
  rewrite encodeURIComponent_cons in Henc.
  destruct (is_unreserved c) eqn:Hu.
  { destruct (encodeURIComponent rest) as [out'|] eqn:Hr; [|discriminate].
    injection Henc as <-. constructor; [by left|].
    apply (IH rest); [simpl; lia | done | done]. }
  destruct (is_leading_surrogate c) eqn:Hl.
  { destruct rest as [|d rest']; [discriminate|].
    destruct (is_trailing_surrogate d) eqn:Ht; [|discriminate].
    destruct (encodeURIComponent rest') as [out'|] eqn:Hr; [|discriminate].
    injection Henc as <-. apply Forall_app. split.
    - apply escape_code_point_safe. by apply pair_code_point_bound.
    - apply Forall_cons in Hrest as [_ Hrest'].
      apply (IH rest'); [simpl; lia | done | done]. }
  destruct (is_trailing_surrogate c); [discriminate|].
  destruct (encodeURIComponent rest) as [out'|] eqn:Hr; [|discriminate].
  injection Henc as <-. apply Forall_app. split.
  - apply escape_code_point_safe. lia.
  - apply (IH rest); [simpl; lia | done | done].
Qed.

(** Encoding a text that follows an encodable one. *)
Lemma encodeURIComponent_app s : ∀ out rest,
  encodeURIComponent s = Some out →
  encodeURIComponent (s ++ rest) = (out ++.) <$> encodeURIComponent rest.
Proof.
  induction s as [s IH] using (induction_ltof1 _ (@length N)).
  unfold ltof in IH. intros out rest Henc.
  destruct s as [|c s'].
  { injection Henc as <-. simpl. by destruct (encodeURIComponent rest). }
  change ((c :: s') ++ rest) with (c :: (s' ++ rest)).
  rewrite encodeURIComponent_cons in Henc |- *.
  destruct (is_unreserved c).
  { destruct (encodeURIComponent s') as [out'|] eqn:Hr; [|discriminate].
    injection Henc as <-. rewrite (IH s' ltac:(simpl; lia) out' rest Hr).
    by destruct (encodeURIComponent rest). }
  destruct (is_leading_surrogate c).
  { destruct s' as [|d s'']; [discriminate|].
    change ((d :: s'') ++ rest) with (d :: (s'' ++ rest)). cbv iota beta.
    destruct (is_trailing_surrogate d); [|discriminate].
    destruct (encodeURIComponent s'') as [out'|] eqn:Hr; [|discriminate].
    injection Henc as <-. rewrite (IH s'' ltac:(simpl; lia) out' rest Hr).
    destruct (encodeURIComponent rest); simpl; [|done].
    by rewrite <- app_assoc. }
  destruct (is_trailing_surrogate c); [discriminate|].
  destruct (encodeURIComponent s') as [out'|] eqn:Hr; [|discriminate].
  injection Henc as <-. rewrite (IH s' ltac:(simpl; lia) out' rest Hr).
  destruct (encodeURIComponent rest); simpl; [|done].
  by rewrite <- app_assoc.
Qed.

(** A text that cannot be encoded stays so when followed by a text that does
    not start with a trailing surrogate. *)
Lemma encodeURIComponent_app_None s : ∀ c rest,
  encodeURIComponent s = None → is_trailing_surrogate c = false →
  encodeURIComponent (s ++ c :: rest) = None.
Proof.
  induction s as [s IH] using (induction_ltof1 _ (@length N)).
  unfold ltof in IH. intros c0 rest Henc Hc0.
  destruct s as [|c s']; [discriminate|].
  change ((c :: s') ++ c0 :: rest) with (c :: (s' ++ c0 :: rest)).
  rewrite encodeURIComponent_cons in Henc |- *.
  destruct (is_unreserved c).
  { destruct (encodeURIComponent s') as [out'|] eqn:Hr; [discriminate|].
    by rewrite (IH s' ltac:(simpl; lia) c0 rest Hr Hc0). }
  destruct (is_leading_surrogate c).
  { destruct s' as [|d s'']; [simpl; by rewrite Hc0|].
    change ((d :: s'') ++ c0 :: rest) with (d :: (s'' ++ c0 :: rest)). cbv iota beta.
    destruct (is_trailing_surrogate d); [|done].
    destruct (encodeURIComponent s'') as [out'|] eqn:Hr; [discriminate|].
    by rewrite (IH s'' ltac:(simpl; lia) c0 rest Hr Hc0). }
  destruct (is_trailing_surrogate c); [done|].
  destruct (encodeURIComponent s') as [out'|] eqn:Hr; [discriminate|].
  by rewrite (IH s' ltac:(simpl; lia) c0 rest Hr Hc0).
Qed.

Lemma encodeURIComponent_unreserved s :
  Forall (λ c, is_unreserved c = true) s → encodeURIComponent s = Some s.
Proof.
  induction 1 as [|c s Hc _ IH]; [reflexivity|].
  rewrite encodeURIComponent_cons, Hc, IH. reflexivity.
Qed.

Lemma encodeURIComponent_no_surrogate s :
  Forall (λ c, is_leading_surrogate c = false ∧ is_trailing_surrogate c = false) s →
  is_Some (encodeURIComponent s).
Proof.
  induction 1 as [|c s [Hl Ht] _ [out IH]]; [by eexists|].
  rewrite encodeURIComponent_cons, Hl, Ht, IH.
  destruct (is_unreserved c); by eexists.
Qed.

End Encode.

(** X21. What [encodeURIComponent] returns for a string of 16-bit code units
    holds only letters, digits, the marks [- _ . ! ~ * ' ( )] and the percent
    sign: no space, quote, slash, question mark, ampersand or character
    outside ASCII is left in the context of a quicklink. *)
Theorem encodeURIComponent_safe (s out : jsstring) :
  Forall (λ c, c < 65536) s → encodeURIComponent s = Some out →
  Forall (λ u, is_unreserved u = true ∨ u = 37) out.
Proof. apply encodeURIComponent_safe_aux. Qed.

Lemma encodeURIComponent_safe_witness :
  let s := [0xE9; SPACE; 0x20AC; 47; 0xD83D; 0xDE00] in
  Forall (λ c, c < 65536) s
  ∧ encodeURIComponent s = Some (js "%C3%A9%20%E2%82%AC%2F%F0%9F%98%80")
  ∧ Forall (λ u, is_unreserved u = true ∨ u = 37)
      (js "%C3%A9%20%E2%82%AC%2F%F0%9F%98%80").
Proof.
  intros s.
  assert (Hs : Forall (λ c, c < 65536) s) by (repeat constructor).
  exact (conj Hs (conj eq_refl (encodeURIComponent_safe s _ Hs eq_refl))).
Defined.

(** X22. The quicklink of an item is the fixed address of the command
    followed by the percent-encoded context, in which the identifier appears
    percent-encoded between the encoded fixed parts of the template; an identifier
    of letters, digits and unreserved marks appears as it is; an identifier
    with a lone surrogate makes the construction throw, and one without
    surrogates never does. *)
Theorem deeplink_spec (extensionName commandName : jsstring) (case_name : CaseType) :
  (∀ enc, encodeURIComponent case_name = Some enc →
     deeplink extensionName commandName case_name
     = Some (js "raycast://extensions/erics118/" ++ extensionName ++ js "/"
             ++ commandName ++ js "?context=%7B%22case%22%3A%22" ++ enc
             ++ js "%22%7D"))
  ∧ (encodeURIComponent case_name = None →
     deeplink extensionName commandName case_name = None)
  ∧ (Forall (λ c, is_unreserved c = true) case_name →
     encodeURIComponent case_name = Some case_name)
  ∧ (Forall (λ c, is_leading_surrogate c = false ∧ is_trailing_surrogate c = false)
       case_name →
     is_Some (deeplink extensionName commandName case_name)).
Proof.
  assert (Hsome : ∀ enc, encodeURIComponent case_name = Some enc →
     deeplink extensionName commandName case_name
     = Some (js "raycast://extensions/erics118/" ++ extensionName ++ js "/"
             ++ commandName ++ js "?context=%7B%22case%22%3A%22" ++ enc
             ++ js "%22%7D")).
  { intros enc Henc. unfold deeplink, quicklink_context.
    rewrite (encodeURIComponent_app (jsq "{'case':'") (js "%7B%22case%22%3A%22")
               (case_name ++ jsq "'}") eq_refl).
    rewrite (encodeURIComponent_app case_name enc (jsq "'}") Henc).
    reflexivity. }
  split; [exact Hsome|]. split; [|split].
  - intros Hnone. unfold deeplink, quicklink_context.
    rewrite (encodeURIComponent_app (jsq "{'case':'") (js "%7B%22case%22%3A%22")
               (case_name ++ jsq "'}") eq_refl).
    change (jsq "'}") with [QUOTE; RBRACE].
    by rewrite (encodeURIComponent_app_None case_name QUOTE [RBRACE] Hnone eq_refl).
  - apply encodeURIComponent_unreserved.
  - intros Hclean.
    destruct (encodeURIComponent_no_surrogate case_name Hclean) as [enc Henc].
    rewrite (Hsome enc Henc). by eexists.
Qed.

Lemma deeplink_spec_witness :
  encodeURIComponent (js "Title Case") = Some (js "Title%20Case")
  ∧ deeplink (js "change-case") (js "change-case") (js "Title Case")
    = Some (js "raycast://extensions/erics118/change-case/change-case?context=%7B%22case%22%3A%22Title%20Case%22%7D")
  ∧ encodeURIComponent [0xD83D] = None
  ∧ deeplink (js "change-case") (js "change-case") [0xD83D] = None.
Proof.
  destruct (deeplink_spec (js "change-case") (js "change-case") (js "Title Case"))
    as (H1 & _).
  destruct (deeplink_spec (js "change-case") (js "change-case") [0xD83D])
    as (_ & H2 & _).
  exact (conj eq_refl (conj (eq_trans (H1 _ eq_refl) eq_refl)
          (conj eq_refl (H2 eq_refl)))).
Defined.

(** ** The action panel *)

Section PanelActions.

Context `{env : Env}.

(** The actions of a panel, by the two flags of the item. *)
Lemma CaseItem_actions_flags (props : Props) :
  CaseItem_actions props =
    (if decide (preferences_action = js "paste")
     then (if frontmostApp then [PasteToActiveApp] else []) else [])
    ++ CopyToClipboard
       :: (if decide (preferences_action = js "copy")
           then (if frontmostApp then [PasteToActiveApp] else []) else [])
    ++ (if truthy_flag (p_pinned props) then [RemovePinnedCase; ClearPinnedCases]
        else [PinCase])
    ++ (if truthy_flag (p_recent props) then [RemoveRecentCase; ClearRecentCases]
        else [])
    ++ [CreateQuicklink].
Proof.
  unfold CaseItem_actions. by destruct (truthy_flag (p_pinned props)).
Qed.

Lemma paste_not_copy : js "paste" ≠ js "copy".
Proof. discriminate. Qed.

(** The flags of a rendered item: never shown as pinned and as recent. *)
Lemma render_flags (s : State) (props : Props) :
  props ∈ render s →
  truthy_flag (p_pinned props) = false ∨ truthy_flag (p_recent props) = false.
Proof.
  rewrite elem_of_render.
  intros [[-> _] | [[-> _] | [-> _]]]; simpl; auto.
Qed.

End PanelActions.

(** X23. Copy to Clipboard is in every panel; Paste is there exactly when a
    frontmost application is known and the preferred action is ["paste"] or
    ["copy"]; the first action of the panel is Paste when the preference is
    ["paste"] and the application is known, and Copy otherwise; no action is
    in a panel twice. *)
Theorem panel_actions `{env : Env} (props : Props) :
  CopyToClipboard ∈ CaseItem_actions props
  ∧ (PasteToActiveApp ∈ CaseItem_actions props
     ↔ frontmostApp = true
       ∧ (preferences_action = js "paste" ∨ preferences_action = js "copy"))
  ∧ head (CaseItem_actions props)
    = Some (if decide (preferences_action = js "paste")
            then (if frontmostApp then PasteToActiveApp else CopyToClipboard)
            else CopyToClipboard)
  ∧ NoDup (CaseItem_actions props).
Proof.
  rewrite CaseItem_actions_flags.
  pose proof paste_not_copy as Hpc.
  destruct (decide (preferences_action = js "paste")) as [Hp|Hp],
    (decide (preferences_action = js "copy")) as [Hc|Hc],
    frontmostApp, (truthy_flag (p_pinned props)), (truthy_flag (p_recent props));
    try (exfalso; congruence); simpl;
    (split; [apply (bool_decide_unpack _); vm_compute; exact I|]);
    (split; [|split; [reflexivity | apply (bool_decide_unpack _); vm_compute; exact I]]);
    (split;
       [intros Hin; first
          [ split; [reflexivity | by (left + right)]
          | exfalso; apply (bool_decide_pack _) in Hin; vm_compute in Hin; exact Hin ]
       | intros [Hf Hpref]; first
          [ apply (bool_decide_unpack _); vm_compute; exact I
          | discriminate Hf
          | destruct Hpref; congruence ] ]).
Qed.

(** X24. Whatever the two lists hold, no panel of a rendered item has two
    different actions with the same shortcut: the actions that share
    cmd-r, and those that share cmd-shift-r, belong to items shown as pinned
    and to items shown as recent, and no item is shown as both. *)
Theorem rendered_shortcuts_distinct `{env : Env} (s : State) (props : Props)
    (a b : Action) :
  props ∈ render s → a ∈ CaseItem_actions props → b ∈ CaseItem_actions props →
  is_Some (shortcut a) → shortcut a = shortcut b → a = b.
Proof.
  intros Hprops Ha Hb Hsome Heq.
  pose proof (render_flags s props Hprops) as Hflags.
  rewrite CaseItem_actions_flags in Ha, Hb.
  destruct (decide (preferences_action = js "paste")),
    (decide (preferences_action = js "copy")), frontmostApp,
    (truthy_flag (p_pinned props)), (truthy_flag (p_recent props));
    try (destruct Hflags as [Hflags|Hflags]; discriminate Hflags);
    simpl in Ha, Hb;
    destruct a; try (by destruct Hsome as [? Hsome]; discriminate Hsome);
    destruct b; try discriminate Heq; try reflexivity;
    exfalso;
    first [ apply (bool_decide_pack _) in Ha; vm_compute in Ha; exact Ha
          | apply (bool_decide_pack _) in Hb; vm_compute in Hb; exact Hb ].
Qed.

Lemma rendered_shortcuts_distinct_witness :
  let props := {| p_case := js "camelCase"; p_pinned := Some true; p_recent := None |} in
  let s := {| pinned := [js "camelCase"]; recent := [js "snake_case"] |} in
  props ∈ @render example_env s
  ∧ @CaseItem_actions example_env props
    = [CopyToClipboard; PasteToActiveApp; RemovePinnedCase; ClearPinnedCases;
       CreateQuicklink]
  ∧ is_Some (shortcut RemovePinnedCase)
  ∧ RemovePinnedCase = RemovePinnedCase.
Proof.
  intros props s.
  assert (Hprops : props ∈ @render example_env s).
  { apply (bool_decide_unpack _). vm_compute. exact I. }
  assert (Ha : RemovePinnedCase ∈ @CaseItem_actions example_env props).
  { apply (bool_decide_unpack _). vm_compute. exact I. }
  assert (Hsome : is_Some (shortcut RemovePinnedCase)) by (by eexists).
  exact (conj Hprops (conj eq_refl (conj Hsome
          (@rendered_shortcuts_distinct example_env s props
             RemovePinnedCase RemovePinnedCase Hprops Ha Ha Hsome eq_refl)))).
Defined.
